(** * gomock/internal/calldo: signature validation for [Call.Do]

    A shallow embedding of [validate.go].  The Go code inspects two
    [reflect.Type] values (the function handed to [Do] and the mocked
    method) and returns an [error] that is [nil] exactly when the first
    may stand in for the second.

    The embedding has three layers:
    - the fragment of package [reflect] the code calls ([Kind], [Elem],
      [Key], [NumIn], [In], [IsVariadic], [NumOut], [Out], type identity,
      [String]); calls that panic in Go return [Panic] here;
    - the error values built by [fmt.Errorf], [errors.Wrap] and
      [errors.Wrapf];
    - the five functions of [validate.go], in the order of the file. *)

From Stdlib Require Import List ZArith String Ascii Bool Lia DecimalString.
Import ListNotations.
Local Open Scope string_scope.
Local Open Scope Z_scope.

(** ** Package [reflect]: kinds *)

Inductive Kind : Type :=
| Invalid | Bool | Int | Int8 | Int16 | Int32 | Int64
| Uint | Uint8 | Uint16 | Uint32 | Uint64 | Uintptr
| Float32 | Float64 | Complex64 | Complex128
| Array | Chan | Func | Interface | Map | Pointer | Slice
| String | Struct | UnsafePointer.

Definition Kind_eqb (a b : Kind) : bool :=
  match a, b with
  | Invalid, Invalid | Bool, Bool | Int, Int | Int8, Int8 | Int16, Int16
  | Int32, Int32 | Int64, Int64 | Uint, Uint | Uint8, Uint8
  | Uint16, Uint16 | Uint32, Uint32 | Uint64, Uint64 | Uintptr, Uintptr
  | Float32, Float32 | Float64, Float64 | Complex64, Complex64
  | Complex128, Complex128 | Array, Array | Chan, Chan | Func, Func
  | Interface, Interface | Map, Map | Pointer, Pointer | Slice, Slice
  | String, String | Struct, Struct | UnsafePointer, UnsafePointer => true
  | _, _ => false
  end.

(** [Kind.String], what [%v] prints for a kind. *)
Definition Kind_String (k : Kind) : string :=
  match k with
  | Invalid => "invalid" | Bool => "bool" | Int => "int" | Int8 => "int8"
  | Int16 => "int16" | Int32 => "int32" | Int64 => "int64"
  | Uint => "uint" | Uint8 => "uint8" | Uint16 => "uint16"
  | Uint32 => "uint32" | Uint64 => "uint64" | Uintptr => "uintptr"
  | Float32 => "float32" | Float64 => "float64"
  | Complex64 => "complex64" | Complex128 => "complex128"
  | Array => "array" | Chan => "chan" | Func => "func"
  | Interface => "interface" | Map => "map" | Pointer => "ptr"
  | Slice => "slice" | String => "string" | Struct => "struct"
  | UnsafePointer => "unsafe.Pointer"
  end.

(** ** Package [reflect]: types

    A [reflect.Type] is modelled by the structure of the Go type it
    describes.  Two [reflect.Type] values are [==] in Go exactly when the
    types are identical, which is structural equality here. *)

Inductive predeclared : Type :=
| Tbool | Tint | Tint8 | Tint16 | Tint32 | Tint64
| Tuint | Tuint8 | Tuint16 | Tuint32 | Tuint64 | Tuintptr
| Tfloat32 | Tfloat64 | Tcomplex64 | Tcomplex128
| Tstring | TunsafePointer.

Inductive ChanDir : Type := RecvDir | SendDir | BothDir.

(* Induction over [type] goes through the lists of parameters, results,
   methods and fields. *)
Scheme All for list.
Scheme All for prod.

Inductive type : Type :=
| Basic (b : predeclared)
| Named (name : string) (underlying : type)
| ArrayOf (len : Z) (elem : type)
| ChanOf (dir : ChanDir) (elem : type)
| FuncOf (ins : list type) (outs : list type) (variadic : bool)
| InterfaceOf (methods : list (string * type))
| MapOf (key elem : type)
| PointerTo (elem : type)
| SliceOf (elem : type)
| StructOf (fields : list (string * type)).

Definition predeclared_Kind (b : predeclared) : Kind :=
  match b with
  | Tbool => Bool | Tint => Int | Tint8 => Int8 | Tint16 => Int16
  | Tint32 => Int32 | Tint64 => Int64 | Tuint => Uint | Tuint8 => Uint8
  | Tuint16 => Uint16 | Tuint32 => Uint32 | Tuint64 => Uint64
  | Tuintptr => Uintptr | Tfloat32 => Float32 | Tfloat64 => Float64
  | Tcomplex64 => Complex64 | Tcomplex128 => Complex128
  | Tstring => String | TunsafePointer => UnsafePointer
  end.

Definition predeclared_eqb (a b : predeclared) : bool :=
  Kind_eqb (predeclared_Kind a) (predeclared_Kind b).

Definition ChanDir_eqb (a b : ChanDir) : bool :=
  match a, b with
  | RecvDir, RecvDir | SendDir, SendDir | BothDir, BothDir => true
  | _, _ => false
  end.

(** Equality of two lists, given the equality of their elements. *)
Definition list_eqb {A : Type} (eqb : A -> A -> bool) : list A -> list A -> bool :=
  fix go (l1 l2 : list A) : bool :=
    match l1, l2 with
    | [], [] => true
    | x :: l1', y :: l2' => eqb x y && go l1' l2'
    | _, _ => false
    end.

(** Type identity: Go's [==] (and [!=]) on [reflect.Type]. *)
Fixpoint type_eqb (a b : type) {struct a} : bool :=
  match a, b with
  | Basic x, Basic y => predeclared_eqb x y
  | Named n u, Named m v => String.eqb n m && type_eqb u v
  | ArrayOf n e, ArrayOf m f => Z.eqb n m && type_eqb e f
  | ChanOf d e, ChanOf c f => ChanDir_eqb d c && type_eqb e f
  | FuncOf i o v, FuncOf j p w =>
      list_eqb type_eqb i j && list_eqb type_eqb o p && Bool.eqb v w
  | InterfaceOf ms, InterfaceOf ns =>
      list_eqb (fun x y => let '(n, t) := x in let '(m, u) := y in
                           String.eqb n m && type_eqb t u) ms ns
  | MapOf k e, MapOf l f => type_eqb k l && type_eqb e f
  | PointerTo e, PointerTo f => type_eqb e f
  | SliceOf e, SliceOf f => type_eqb e f
  | StructOf fs, StructOf gs =>
      list_eqb (fun x y => let '(n, t) := x in let '(m, u) := y in
                           String.eqb n m && type_eqb t u) fs gs
  | _, _ => false
  end.

(** ** Package [reflect]: the methods of [reflect.Type] used by the code

    A method that panics in Go returns [Panic] with the panic's message. *)

Inductive result (A : Type) : Type :=
| Return (a : A)
| Panic (msg : string).
Arguments Return {A} a.
Arguments Panic {A} msg.

Definition bind {A B : Type} (m : result A) (k : A -> result B) : result B :=
  match m with
  | Return a => k a
  | Panic msg => Panic msg
  end.

Notation "x <- m ;; k" := (bind m (fun x => k))
  (at level 61, m at next level, right associativity).

Fixpoint Kind_of (t : type) : Kind :=
  match t with
  | Basic b => predeclared_Kind b
  | Named _ u => Kind_of u
  | ArrayOf _ _ => Array
  | ChanOf _ _ => Chan
  | FuncOf _ _ _ => Func
  | InterfaceOf _ => Interface
  | MapOf _ _ => Map
  | PointerTo _ => Pointer
  | SliceOf _ => Slice
  | StructOf _ => Struct
  end.

(** [Type.Elem]: "It panics if the type's Kind is not Array, Chan, Map,
    Pointer, or Slice." *)
Fixpoint Elem (t : type) : result type :=
  match t with
  | Named _ u => Elem u
  | ArrayOf _ e | ChanOf _ e | MapOf _ e | PointerTo e | SliceOf e => Return e
  | _ => Panic "reflect: Elem of invalid type"
  end.

(** [Type.Key]: "It panics if the type's Kind is not Map." *)
Fixpoint Key (t : type) : result type :=
  match t with
  | Named _ u => Key u
  | MapOf k _ => Return k
  | _ => Panic "reflect: Key of non-map type"
  end.

(** [Type.NumIn], [Type.NumOut], [Type.IsVariadic]: each "panics if the
    type's Kind is not Func".  The counts are Go [int]s; a function type
    has far fewer than 2^63 parameters, so they are in [Z] as they are. *)
Fixpoint NumIn (t : type) : result Z :=
  match t with
  | Named _ u => NumIn u
  | FuncOf ins _ _ => Return (Z.of_nat (List.length ins))
  | _ => Panic "reflect: NumIn of non-func type"
  end.

Fixpoint NumOut (t : type) : result Z :=
  match t with
  | Named _ u => NumOut u
  | FuncOf _ outs _ => Return (Z.of_nat (List.length outs))
  | _ => Panic "reflect: NumOut of non-func type"
  end.

Fixpoint IsVariadic (t : type) : result bool :=
  match t with
  | Named _ u => IsVariadic u
  | FuncOf _ _ v => Return v
  | _ => Panic "reflect: IsVariadic of non-func type"
  end.

(** Indexing a Go slice: out of range is a run-time panic. *)
Definition index {A : Type} (l : list A) (i : Z) : result A :=
  if i <? 0 then Panic "index out of range"
  else match nth_error l (Z.to_nat i) with
       | Some a => Return a
       | None => Panic "index out of range"
       end.

(** [Type.In] and [Type.Out]: panic "if the type's Kind is not Func" or
    "if i is not in the range [0, NumIn())" (resp. [NumOut()]). *)
Fixpoint In (t : type) (i : Z) : result type :=
  match t with
  | Named _ u => In u i
  | FuncOf ins _ _ => index ins i
  | _ => Panic "reflect: In of non-func type"
  end.

Fixpoint Out (t : type) (i : Z) : result type :=
  match t with
  | Named _ u => Out u i
  | FuncOf _ outs _ => index outs i
  | _ => Panic "reflect: Out of non-func type"
  end.

(** [Type.String], what [%v] prints for a [reflect.Type]. *)
Definition predeclared_String (b : predeclared) : string :=
  match b with
  | TunsafePointer => "unsafe.Pointer"
  | _ => Kind_String (predeclared_Kind b)
  end.

(** [%d] of a Go [int]. *)
Definition Z_String (z : Z) : string := NilZero.string_of_int (Z.to_int z).

Definition drop (n : nat) (s : string) : string :=
  substring n (String.length s - n) s.

(** Parameter lists print the final parameter of a variadic function as
    [...T] where the parameter's type is [[]T]. *)
Fixpoint params_String (ps : list string) (variadic : bool) : string :=
  match ps with
  | [] => ""
  | [p] => if variadic then "..." ++ drop 2 p else p
  | p :: ps' => p ++ ", " ++ params_String ps' variadic
  end.

Definition results_String (rs : list string) : string :=
  match rs with
  | [] => ""
  | [r] => " " ++ r
  | _ => " (" ++ String.concat ", " rs ++ ")"
  end.

Definition braces (keyword : string) (items : list string) : string :=
  match items with
  | [] => keyword ++ " {}"
  | _ => keyword ++ " { " ++ String.concat "; " items ++ " }"
  end.

Definition ChanDir_String (d : ChanDir) : string :=
  match d with
  | RecvDir => "<-chan "
  | SendDir => "chan<- "
  | BothDir => "chan "
  end.

Fixpoint type_String (t : type) : string :=
  match t with
  | Basic b => predeclared_String b
  | Named n _ => n
  | ArrayOf n e => "[" ++ Z_String n ++ "]" ++ type_String e
  | ChanOf d e => ChanDir_String d ++ type_String e
  | FuncOf ins outs v =>
      "func(" ++ params_String (map type_String ins) v ++ ")"
      ++ results_String (map type_String outs)
  | InterfaceOf ms =>
      braces "interface"
        (map (fun m => let '(n, t) := m in n ++ drop 4 (type_String t)) ms)
  | MapOf k e => "map[" ++ type_String k ++ "]" ++ type_String e
  | PointerTo e => "*" ++ type_String e
  | SliceOf e => "[]" ++ type_String e
  | StructOf fs =>
      braces "struct"
        (map (fun f => let '(n, t) := f in n ++ " " ++ type_String t) fs)
  end.

(** ** Errors

    [fmt.Errorf] (without [%w]) yields an error that holds the formatted
    text; [errors.Wrap] and [errors.Wrapf] of [github.com/pkg/errors] keep
    the cause and put the message in front of it.  Go's [error] is
    [option error] here, [nil] being [None]. *)

Inductive error : Type :=
| errorString (s : string)
| withMessage (cause : error) (msg : string).

(** [err.Error()] *)
Fixpoint Error (e : error) : string :=
  match e with
  | errorString s => s
  | withMessage cause msg => msg ++ ": " ++ Error cause
  end.

Definition Wrap (err : error) (message : string) : error :=
  withMessage err message.

(** The indices [0, 1, ..., n-1] visited by [for i := 0; i < n; i++]. *)
Definition range (n : Z) : list Z := map Z.of_nat (seq 0 (Z.to_nat n)).

(** ** validate.go: the errors it builds

    One definition per [fmt.Errorf] / [errors.Wrapf] call of the file,
    named after what the message reports. *)

(** Line 30: the numbers of arguments differ. *)
Definition errArgCount (callIn doIn : Z) : error :=
  errorString ("Do: expected function to have " ++ Z_String callIn
               ++ " arguments not " ++ Z_String doIn).

(** Line 42: the variadic argument is rejected. *)
Definition errVariadicArg (callArg : type) (i : Z) (doArg : type) : error :=
  errorString ("Do: expected function to have arg of type "
               ++ type_String callArg ++ " at position " ++ Z_String i
               ++ " not type " ++ type_String doArg).

(** Line 58: an input argument is rejected; [%s] flattens the cause. *)
Definition errInputArgument (i : Z) (err : error) : error :=
  errorString ("input argument at " ++ Z_String i ++ ": " ++ Error err).

(** Line 64: the numbers of return values differ. *)
Definition errReturnCount (callOut doOut : Z) : error :=
  errorString ("Do: expected function to have " ++ Z_String callOut
               ++ " return vals not " ++ Z_String doOut).

(** Line 74: a return value is rejected; the cause is kept. *)
Definition errReturnArgument (i : Z) (err : error) : error :=
  Wrap err ("return argument at " ++ Z_String i).

(** Line 107: the type does not convert to the interface. *)
Definition errNotConvertible (callArg doArg : type) : error :=
  errorString ("expected arg convertible to type " ++ type_String callArg
               ++ " not type " ++ type_String doArg).

(** Lines 127 and 142: map key, map element of another type. *)
Definition errMapKey (callKey doKey : type) : error :=
  errorString ("expected map key of type " ++ type_String callKey
               ++ " not type " ++ type_String doKey).

Definition errMapElement (callElem doElem : type) : error :=
  errorString ("expected map element of type " ++ type_String callElem
               ++ " not type " ++ type_String doElem).

(** Line 162: the kinds differ. *)
Definition errKind (callKind doKind : Kind) : error :=
  errorString ("expected arg of kind " ++ Kind_String callKind
               ++ " not " ++ Kind_String doKind).

(** Line 175: same kind, another type. *)
Definition errType (callArg doArg : type) : error :=
  errorString ("Expected arg of type " ++ type_String callArg
               ++ " not type " ++ type_String doArg).

(** ** validate.go: the functions *)

Section Validate.

(** [t.ConvertibleTo(u)] is decided by Go's conversion rules, which the
    code uses as a black box. *)
Variable ConvertibleTo : type -> type -> bool.

Definition validateVariadicArg (lastIdx : Z) (doFunc callFunc : type)
  : result bool :=
  d <- In doFunc (lastIdx - 1) ;;
  c <- In callFunc (lastIdx - 1) ;;
  if negb (type_eqb d c) then
    d' <- In doFunc (lastIdx - 1) ;;
    if negb (Kind_eqb (Kind_of d') Slice) then Return false
    else
      callArgT <- In callFunc (lastIdx - 1) ;;
      callElem <- Elem callArgT ;;
      if negb (Kind_eqb (Kind_of callElem) Interface) then Return false
      else
        doArgT <- In doFunc (lastIdx - 1) ;;
        doElem <- Elem doArgT ;;
        if negb (ConvertibleTo doElem callElem) then Return false
        else Return true
  else Return true.

Definition validateInterfaceArg (doArg callArg : type) : option error :=
  if negb (ConvertibleTo doArg callArg) then
    Some (errNotConvertible callArg doArg)
  else None.

Definition validateMapArg (doArg callArg : type) : result (option error) :=
  callKey <- Key callArg ;;
  doKey <- Key doArg ;;
  match
    match Kind_of callKey with
    | Interface =>
        match validateInterfaceArg doKey callKey with
        | Some err => Some (Wrap err "map key")
        | None => None
        end
    | _ =>
        if negb (type_eqb doKey callKey) then Some (errMapKey callKey doKey)
        else None
    end
  with
  | Some err => Return (Some err)
  | None =>
      callElem <- Elem callArg ;;
      doElem <- Elem doArg ;;
      match Kind_of callElem with
      | Interface =>
          match validateInterfaceArg doElem callElem with
          | Some err => Return (Some (Wrap err "map element"))
          | None => Return None
          end
      | _ =>
          if negb (type_eqb doElem callElem) then
            Return (Some (errMapElement callElem doElem))
          else Return None
      end
  end.

Definition validateArg (doArg callArg : type) : result (option error) :=
  match Kind_of callArg with
  | Interface => Return (validateInterfaceArg doArg callArg)
  | _ =>
      if negb (Kind_eqb (Kind_of callArg) (Kind_of doArg)) then
        Return (Some (errKind (Kind_of callArg) (Kind_of doArg)))
      else
        match Kind_of callArg with
        | Map => validateMapArg doArg callArg
        | _ =>
            if negb (type_eqb doArg callArg) then
              Return (Some (errType callArg doArg))
            else Return None
        end
  end.

(** The loop over the input arguments, lines 53-60. *)
Fixpoint inputLoop (doFunc callFunc : type) (idx : list Z)
  : result (option error) :=
  match idx with
  | [] => Return None
  | i :: idx' =>
      callArg <- In callFunc i ;;
      doArg <- In doFunc i ;;
      r <- validateArg doArg callArg ;;
      match r with
      | Some err => Return (Some (errInputArgument i err))
      | None => inputLoop doFunc callFunc idx'
      end
  end.

(** The loop over the return values, lines 69-76. *)
Fixpoint outputLoop (doFunc callFunc : type) (idx : list Z)
  : result (option error) :=
  match idx with
  | [] => Return None
  | i :: idx' =>
      callArg <- Out callFunc i ;;
      doArg <- Out doFunc i ;;
      r <- validateArg doArg callArg ;;
      match r with
      | Some err => Return (Some (errReturnArgument i err))
      | None => outputLoop doFunc callFunc idx'
      end
  end.

(** The variadic step, lines 39-51: either the error to return, or the
    value of [lastIdx] for the loop that follows. *)
Definition variadicStep (doFunc callFunc : type) (lastIdx : Z)
  : result (error + Z) :=
  variadic <- IsVariadic callFunc ;;
  if variadic then
    ok <- validateVariadicArg lastIdx doFunc callFunc ;;
    if negb ok then
      let i := lastIdx - 1 in
      callArg <- In callFunc i ;;
      doArg <- In doFunc i ;;
      Return (inl (errVariadicArg callArg i doArg))
    else Return (inr (lastIdx - 1))
  else Return (inr lastIdx).

Definition ValidateInputAndOutputSig (doFunc callFunc : type)
  : result (option error) :=
  doIn <- NumIn doFunc ;;
  callIn <- NumIn callFunc ;;
  if negb (doIn =? callIn) then Return (Some (errArgCount callIn doIn))
  else
    r <- variadicStep doFunc callFunc callIn ;;
    match r with
    | inl err => Return (Some err)
    | inr lastIdx =>
        r <- inputLoop doFunc callFunc (range lastIdx) ;;
        match r with
        | Some err => Return (Some err)
        | None =>
            doOut <- NumOut doFunc ;;
            callOut <- NumOut callFunc ;;
            if negb (doOut =? callOut) then
              Return (Some (errReturnCount callOut doOut))
            else outputLoop doFunc callFunc (range callOut)
        end
    end.

End Validate.

(** ** The signatures of call_test.go *)

Definition int : type := Basic Tint.
Definition bool_ : type := Basic Tbool.
Definition string_ : type := Basic Tstring.
Definition emptyInterface : type := InterfaceOf [].
Definition error_ : type :=
  Named "error" (InterfaceOf [("Error", FuncOf [] [string_] false)]).

(** The two conversions every Go type admits and the tests rely on: a
    type converts to itself and to the empty interface. *)
Definition convertible_core (t u : type) : bool :=
  type_eqb t u || type_eqb u emptyInterface.

(** * Vocabulary of the properties *)

(** ** Function types

    [signature t] is the parameter list, result list and variadic flag
    of a type of kind [Func]. *)

Fixpoint signature (t : type) : option (list type * list type * bool) :=
  match t with
  | Named _ u => signature u
  | FuncOf ins outs v => Some (ins, outs, v)
  | _ => None
  end.

(** The final parameter of a variadic function type [func(..., ...T)]
    has type [[]T]. *)
Definition variadic_ok (ins : list type) (v : bool) : Prop :=
  v = true -> exists init e, ins = (init ++ [SliceOf e])%list.

Definition func_type (t : type) : Prop :=
  exists ins outs v, signature t = Some (ins, outs, v) /\ variadic_ok ins v.

(** ** Running checks until one fails

    [firstFailure run cs] runs the checks of [cs] from left to right and
    stops at the first one that reports an error (or panics). *)

Fixpoint firstFailure {A : Type} (run : A -> result (option error)) (cs : list A)
  : result (option error) :=
  match cs with
  | [] => Return None
  | c :: cs' =>
      r <- run c ;;
      match r with
      | Some err => Return (Some err)
      | None => firstFailure run cs'
      end
  end.

(** ** The checks of [ValidateInputAndOutputSig] *)

(** The checks [ValidateInputAndOutputSig] makes, one constructor per
    place of the function that can return an error. *)
Inductive check : Type :=
| InputArity
| VariadicArg
| InputArg (i : Z)
| ReturnArity
| ReturnArg (i : Z).

(** The checks in the order of the traversal: the number of arguments,
    the variadic argument when the mocked method is variadic, the other
    arguments from left to right, the number of return values, the
    return values from left to right. *)
Definition traversal (callFunc : type) : result (list check) :=
  callIn <- NumIn callFunc ;;
  variadic <- IsVariadic callFunc ;;
  callOut <- NumOut callFunc ;;
  Return ([InputArity]
          ++ (if variadic then [VariadicArg] else [])
          ++ map InputArg (range (if variadic then callIn - 1 else callIn))
          ++ [ReturnArity]
          ++ map ReturnArg (range callOut))%list.

Section CheckDefinitions.

Variable conv : type -> type -> bool.
Variables doFunc callFunc : type.

(** What one round of each loop checks. *)
Definition inputCheck (i : Z) : result (option error) :=
  callArg <- In callFunc i ;;
  doArg <- In doFunc i ;;
  validateArg conv doArg callArg.

Definition outputCheck (i : Z) : result (option error) :=
  callArg <- Out callFunc i ;;
  doArg <- Out doFunc i ;;
  validateArg conv doArg callArg.

Definition onError (f : error -> error) (r : result (option error))
  : result (option error) :=
  o <- r ;; Return (option_map f o).

(** The outcome of one check, alone: the error it reports, if any. *)
Definition runCheck (c : check) : result (option error) :=
  match c with
  | InputArity =>
      doIn <- NumIn doFunc ;;
      callIn <- NumIn callFunc ;;
      Return (if negb (doIn =? callIn) then Some (errArgCount callIn doIn)
              else None)
  | VariadicArg =>
      lastIdx <- NumIn callFunc ;;
      ok <- validateVariadicArg conv lastIdx doFunc callFunc ;;
      if negb ok then
        callArg <- In callFunc (lastIdx - 1) ;;
        doArg <- In doFunc (lastIdx - 1) ;;
        Return (Some (errVariadicArg callArg (lastIdx - 1) doArg))
      else Return None
  | InputArg i => onError (errInputArgument i) (inputCheck i)
  | ReturnArity =>
      doOut <- NumOut doFunc ;;
      callOut <- NumOut callFunc ;;
      Return (if negb (doOut =? callOut) then Some (errReturnCount callOut doOut)
              else None)
  | ReturnArg i => onError (errReturnArgument i) (outputCheck i)
  end.

End CheckDefinitions.

(** The checks made on the input side. *)
Definition input_check (c : check) : bool :=
  match c with
  | InputArity | VariadicArg | InputArg _ => true
  | ReturnArity | ReturnArg _ => false
  end.

(** Positions of a pair of function types: the types found there. *)
Definition input_at (doFunc callFunc : type) (i : Z) (doArg callArg : type) : Prop :=
  In doFunc i = Return doArg /\ In callFunc i = Return callArg.

Definition output_at (doFunc callFunc : type) (i : Z) (doArg callArg : type) : Prop :=
  Out doFunc i = Return doArg /\ Out callFunc i = Return callArg.

(** ** The variadic argument and the mapping matcher *)

(** The rule for the variadic argument as section 4.3 of the
    specification words it: [subType] against the element type
    [declaredElem] of the declared variadic parameter. *)
Definition variadicMatcher_spec (conv : type -> type -> bool)
    (subType declaredElem : type) : result bool :=
  if type_eqb subType declaredElem then Return true
  else if negb (Kind_eqb (Kind_of subType) Slice) then Return false
  else
    subElem <- Elem subType ;;
    if negb (Kind_eqb (Kind_of subElem) Interface) then Return false
    else Return (conv declaredElem subElem).

(** A key or element slot of two map types is accepted by convertibility
    when the declared type of the slot is of Interface kind, and by
    identity otherwise. *)
Definition slot_ok (conv : type -> type -> bool) (doT callT : type) : Prop :=
  match Kind_of callT with
  | Interface => conv doT callT = true
  | _ => doT = callT
  end.

(** An error carries the qualifier [q] when its text starts with [q] (a
    wrapped cause) or with [expected q]. *)
Definition qualified (q : string) (err : error) : Prop :=
  prefix q (Error err) = true \/ prefix ("expected " ++ q) (Error err) = true.

(** The error the code reports for a slot that is not accepted. *)
Definition slot_error (q : string) (plain : type -> type -> error)
    (doT callT : type) : error :=
  match Kind_of callT with
  | Interface => Wrap (errNotConvertible callT doT) q
  | _ => plain callT doT
  end.

(** [validateArg] with the function it calls at line 170 left open. *)
Definition validateArg_with (conv : type -> type -> bool)
    (mapArg : type -> type -> result (option error))
    (doArg callArg : type) : result (option error) :=
  match Kind_of callArg with
  | Interface => Return (validateInterfaceArg conv doArg callArg)
  | _ =>
      if negb (Kind_eqb (Kind_of callArg) (Kind_of doArg)) then
        Return (Some (errKind (Kind_of callArg) (Kind_of doArg)))
      else
        match Kind_of callArg with
        | Map => mapArg doArg callArg
        | _ =>
            if negb (type_eqb doArg callArg) then
              Return (Some (errType callArg doArg))
            else Return None
        end
  end.

(** ** Acceptance, stated on the types *)

(** When the argument matcher accepts [doArg] where [callArg] is
    declared: by convertibility for an interface, slot by slot for two
    maps, by identity otherwise. *)
Definition accepts (conv : type -> type -> bool) (doArg callArg : type) : Prop :=
  match Kind_of callArg with
  | Interface => conv doArg callArg = true
  | Map =>
      Kind_of doArg = Map /\
      exists callKey doKey callElem doElem,
        Key callArg = Return callKey /\ Key doArg = Return doKey /\
        Elem callArg = Return callElem /\ Elem doArg = Return doElem /\
        slot_ok conv doKey callKey /\ slot_ok conv doElem callElem
  | _ => doArg = callArg
  end.

(** When [subType] is accepted for a declared variadic parameter
    [...declaredElem]. *)
Definition variadic_accepts (conv : type -> type -> bool)
    (subType declaredElem : type) : Prop :=
  subType = SliceOf declaredElem \/
  (Kind_of subType = Slice /\ Kind_of declaredElem = Interface /\
   exists subElem, Elem subType = Return subElem /\
                   conv subElem declaredElem = true).

(** When the parameter list [dins] is accepted for the declared list
    [cins], the declared function being variadic or not. *)
Definition inputs_accepted (conv : type -> type -> bool) (variadic : bool)
    (dins cins : list type) : Prop :=
  if variadic then
    exists dinit dlast cinit declaredElem,
      dins = (dinit ++ [dlast])%list /\
      cins = (cinit ++ [SliceOf declaredElem])%list /\
      variadic_accepts conv dlast declaredElem /\
      Forall2 (accepts conv) dinit cinit
  else Forall2 (accepts conv) dins cins.

(** A declared type that admits only itself. *)
Definition strict (t : type) : Prop :=
  Kind_of t <> Interface /\ Kind_of t <> Map.

(** ** call_test.go: the test reporter

    [mockTestReporter] counts the calls of [Errorf] and of [Fatalf] in
    two Go [int]s (64 bits, wrapping around). *)

Definition int_wrap (z : Z) : Z := (z + 2 ^ 63) mod 2 ^ 64 - 2 ^ 63.

Record mockTestReporter : Type := {
  errorCalls : Z;
  fatalCalls : Z
}.

Section Reporter.

(** The values passed for [args ...interface{}]. *)
Variable any : Type.

Definition Errorf (o : mockTestReporter) (format : string) (args : list any)
  : mockTestReporter :=
  {| errorCalls := int_wrap (errorCalls o + 1); fatalCalls := fatalCalls o |}.

Definition Fatalf (o : mockTestReporter) (format : string) (args : list any)
  : mockTestReporter :=
  {| errorCalls := errorCalls o; fatalCalls := int_wrap (fatalCalls o + 1) |}.

Definition Helper (o : mockTestReporter) : mockTestReporter := o.

(** A call of one of the three methods, and a run of calls on [o]. *)
Inductive reporterCall : Type :=
| CallErrorf (format : string) (args : list any)
| CallFatalf (format : string) (args : list any)
| CallHelper.

Definition report (o : mockTestReporter) (c : reporterCall) : mockTestReporter :=
  match c with
  | CallErrorf format args => Errorf o format args
  | CallFatalf format args => Fatalf o format args
  | CallHelper => Helper o
  end.

Definition reports (o : mockTestReporter) (cs : list reporterCall)
  : mockTestReporter :=
  fold_left report cs o.

Definition isErrorf (c : reporterCall) : bool :=
  match c with CallErrorf _ _ => true | _ => false end.

Definition isFatalf (c : reporterCall) : bool :=
  match c with CallFatalf _ _ => true | _ => false end.

(** How many calls of [Errorf], of [Fatalf], a run makes. *)
Definition countErrorf (cs : list reporterCall) : Z :=
  Z.of_nat (List.length (filter isErrorf cs)).

Definition countFatalf (cs : list reporterCall) : Z :=
  Z.of_nat (List.length (filter isFatalf cs)).

End Reporter.

(** * Properties *)

(** ** Type identity *)

Lemma Kind_eqb_eq (a b : Kind) : Kind_eqb a b = true <-> a = b.
Proof. destruct a, b; simpl; split; intro H; try reflexivity; discriminate H. Qed.

Lemma Kind_eqb_refl (a : Kind) : Kind_eqb a a = true.
Proof. now apply Kind_eqb_eq. Qed.

Lemma predeclared_eqb_eq (a b : predeclared) : predeclared_eqb a b = true <-> a = b.
Proof. destruct a, b; simpl; split; intro H; try reflexivity; discriminate H. Qed.

Lemma ChanDir_eqb_eq (a b : ChanDir) : ChanDir_eqb a b = true <-> a = b.
Proof. destruct a, b; simpl; split; intro H; try reflexivity; discriminate H. Qed.

Lemma list_eqb_eq {A : Type} (eqb : A -> A -> bool) (l1 : list A) :
  list_all A (fun x => forall y, eqb x y = true <-> x = y) l1 ->
  forall l2, list_eqb eqb l1 l2 = true <-> l1 = l2.
Proof.
  induction 1 as [|x Hx l1 _ IH]; intros [|y l2]; simpl; split; intro H;
    try reflexivity; try discriminate H.
  - apply andb_true_iff in H as [H1 H2].
    apply Hx in H1. apply IH in H2. now subst.
  - injection H as -> ->. apply andb_true_iff. split; [now apply Hx | now apply IH].
Qed.

Lemma named_eqb_eq (eqb : type -> type -> bool) (l1 : list (string * type)) :
  list_all _ (prod_all string (fun _ => unit) type
                (fun t => forall u, eqb t u = true <-> t = u)) l1 ->
  list_all _ (fun x => forall y,
                (let '(n, t) := x in let '(m, u) := y in
                 String.eqb n m && eqb t u) = true <-> x = y) l1.
Proof.
  induction 1 as [|x Hx l1 _ IH]; constructor; [|exact IH].
  destruct Hx as [n _ t Ht]. intros [m u]. split; intro H.
  - apply andb_true_iff in H as [H1 H2].
    apply String.eqb_eq in H1. apply Ht in H2. now subst.
  - injection H as -> ->. apply andb_true_iff.
    split; [apply String.eqb_refl | now apply Ht].
Qed.

Lemma type_eqb_eq (a b : type) : type_eqb a b = true <-> a = b.
Proof.
  revert b.
  induction a as [x | n u IHu | n e IHe | d e IHe | i Hi o Ho v | ms Hms
                 | k IHk e IHe | e IHe | e IHe | fs Hfs];
    intros [y | m v' | m f | c f | j p w | ns | l f | f | f | gs]; simpl;
    split; intro H; try reflexivity; try discriminate H.
  - apply predeclared_eqb_eq in H. now subst.
  - injection H as ->. now apply predeclared_eqb_eq.
  - apply andb_true_iff in H as [H1 H2].
    apply String.eqb_eq in H1. apply IHu in H2. now subst.
  - injection H as -> ->. rewrite String.eqb_refl. now apply IHu.
  - apply andb_true_iff in H as [H1 H2].
    apply Z.eqb_eq in H1. apply IHe in H2. now subst.
  - injection H as -> ->. rewrite Z.eqb_refl. now apply IHe.
  - apply andb_true_iff in H as [H1 H2].
    apply ChanDir_eqb_eq in H1. apply IHe in H2. now subst.
  - injection H as -> ->. apply andb_true_iff.
    split; [now apply ChanDir_eqb_eq | now apply IHe].
  - apply andb_true_iff in H as [H H3]. apply andb_true_iff in H as [H1 H2].
    apply (list_eqb_eq _ _ Hi) in H1. apply (list_eqb_eq _ _ Ho) in H2.
    apply Bool.eqb_prop in H3. now subst.
  - injection H as -> -> ->. rewrite Bool.eqb_reflx, !andb_true_r.
    apply andb_true_iff.
    split; [now apply (list_eqb_eq _ _ Hi) | now apply (list_eqb_eq _ _ Ho)].
  - f_equal. exact (proj1 (list_eqb_eq _ _ (named_eqb_eq _ _ Hms) _) H).
  - injection H as ->.
    exact (proj2 (list_eqb_eq _ _ (named_eqb_eq _ _ Hms) _) eq_refl).
  - apply andb_true_iff in H as [H1 H2].
    apply IHk in H1. apply IHe in H2. now subst.
  - injection H as -> ->. apply andb_true_iff. split; [now apply IHk | now apply IHe].
  - apply IHe in H. now subst.
  - injection H as ->. now apply IHe.
  - apply IHe in H. now subst.
  - injection H as ->. now apply IHe.
  - f_equal. exact (proj1 (list_eqb_eq _ _ (named_eqb_eq _ _ Hfs) _) H).
  - injection H as ->.
    exact (proj2 (list_eqb_eq _ _ (named_eqb_eq _ _ Hfs) _) eq_refl).
Qed.

Lemma type_eqb_refl (t : type) : type_eqb t t = true.
Proof. now apply type_eqb_eq. Qed.

Lemma type_eqb_neq (a b : type) : type_eqb a b = false <-> a <> b.
Proof.
  split.
  - intros H ->. rewrite type_eqb_refl in H. discriminate H.
  - intro H. destruct (type_eqb a b) eqn:E; [|reflexivity].
    apply type_eqb_eq in E. contradiction.
Qed.

(** ** What the kind of a type says about [Key] and [Elem] *)

Lemma Kind_Map_Key (t : type) : Kind_of t = Map -> exists k, Key t = Return k.
Proof.
  induction t; simpl; intro Hk; try discriminate Hk; eauto.
  destruct b; discriminate Hk.
Qed.

Lemma Kind_Map_Elem (t : type) : Kind_of t = Map -> exists e, Elem t = Return e.
Proof.
  induction t; simpl; intro Hk; try discriminate Hk; eauto.
  destruct b; discriminate Hk.
Qed.

Lemma Kind_Slice_Elem (t : type) : Kind_of t = Slice -> exists e, Elem t = Return e.
Proof.
  induction t; simpl; intro Hk; try discriminate Hk; eauto.
  destruct b; discriminate Hk.
Qed.

Section Signature.

Variables (t : type) (ins outs : list type) (v : bool).
Hypothesis Hsig : signature t = Some (ins, outs, v).

Lemma signature_NumIn : NumIn t = Return (Z.of_nat (List.length ins)).
Proof using Hsig.
  revert Hsig. induction t; simpl; intro Hs; try discriminate Hs; auto.
  now injection Hs as -> _ _.
Qed.

Lemma signature_NumOut : NumOut t = Return (Z.of_nat (List.length outs)).
Proof using Hsig.
  revert Hsig. induction t; simpl; intro Hs; try discriminate Hs; auto.
  now injection Hs as _ -> _.
Qed.

Lemma signature_IsVariadic : IsVariadic t = Return v.
Proof using Hsig.
  revert Hsig. induction t; simpl; intro Hs; try discriminate Hs; auto.
  now injection Hs as _ _ ->.
Qed.

Lemma signature_In (i : Z) : In t i = index ins i.
Proof using Hsig.
  revert Hsig. induction t; simpl; intro Hs; try discriminate Hs; auto.
  now injection Hs as -> _ _.
Qed.

Lemma signature_Out (i : Z) : Out t i = index outs i.
Proof using Hsig.
  revert Hsig. induction t; simpl; intro Hs; try discriminate Hs; auto.
  now injection Hs as _ -> _.
Qed.

End Signature.

(** ** Indexing *)

Lemma index_Return {A : Type} (l : list A) (i : Z) (a : A) :
  index l i = Return a <-> 0 <= i /\ nth_error l (Z.to_nat i) = Some a.
Proof.
  unfold index. destruct (Z.ltb_spec i 0).
  - split; [discriminate | lia].
  - destruct (nth_error l (Z.to_nat i)); split.
    + now intros [= ->].
    + now intros [_ [= ->]].
    + discriminate.
    + now intros [_ H'].
Qed.

Lemma index_in_range {A : Type} (l : list A) (i : Z) :
  0 <= i < Z.of_nat (List.length l) -> exists a, index l i = Return a.
Proof.
  intros Hi. destruct (nth_error l (Z.to_nat i)) eqn:E.
  - exists a. apply index_Return. split; [lia | exact E].
  - apply nth_error_None in E. lia.
Qed.

Lemma index_range {A : Type} (l : list A) (i : Z) (a : A) :
  index l i = Return a -> 0 <= i < Z.of_nat (List.length l).
Proof.
  intros H. apply index_Return in H as [H0 H].
  assert (Z.to_nat i < List.length l)%nat by (apply nth_error_Some; congruence).
  lia.
Qed.

Lemma index_last {A : Type} (init : list A) (a : A) :
  index (init ++ [a])%list (Z.of_nat (List.length (init ++ [a])%list) - 1) = Return a.
Proof.
  apply index_Return. rewrite length_app. simpl. split; [lia|].
  replace (Z.to_nat (Z.of_nat (List.length init + 1) - 1)) with (List.length init) by lia.
  rewrite nth_error_app2, Nat.sub_diag by lia. reflexivity.
Qed.

Lemma in_range (n i : Z) : List.In i (range n) <-> 0 <= i < n.
Proof.
  unfold range. rewrite in_map_iff. split.
  - intros [k [<- Hk]]. apply in_seq in Hk. lia.
  - intros Hi. exists (Z.to_nat i). split; [lia|]. apply in_seq. lia.
Qed.

Section FirstFailure.

Context {A : Type} (run : A -> result (option error)).

Lemma firstFailure_app (cs1 cs2 : list A) :
  firstFailure run (cs1 ++ cs2)%list =
  (r <- firstFailure run cs1 ;;
   match r with
   | Some err => Return (Some err)
   | None => firstFailure run cs2
   end).
Proof.
  induction cs1 as [|c cs1 IH]; simpl; [reflexivity|].
  destruct (run c) as [[err|]|msg]; simpl; auto.
Qed.

Lemma firstFailure_pass (cs : list A) :
  (forall c, List.In c cs -> run c = Return None) ->
  firstFailure run cs = Return None.
Proof.
  induction cs as [|c cs IH]; simpl; intro H; [reflexivity|].
  rewrite (H c) by now left. simpl. apply IH. intros c' Hc'. apply H. now right.
Qed.

Lemma firstFailure_fail (pre : list A) (c : A) (post : list A) (err : error) :
  (forall c', List.In c' pre -> run c' = Return None) ->
  run c = Return (Some err) ->
  firstFailure run (pre ++ c :: post)%list = Return (Some err).
Proof.
  intros Hpre Hc. rewrite firstFailure_app, (firstFailure_pass pre Hpre).
  simpl. now rewrite Hc.
Qed.

Lemma firstFailure_None (cs : list A) :
  firstFailure run cs = Return None ->
  forall c, List.In c cs -> run c = Return None.
Proof.
  induction cs as [|c cs IH]; simpl; intros H c' Hc'; [contradiction|].
  destruct (run c) as [[err|]|msg] eqn:E; simpl in H; try discriminate H.
  destruct Hc' as [<-|Hc']; [exact E | now apply IH].
Qed.

Lemma firstFailure_Some (cs : list A) (err : error) :
  firstFailure run cs = Return (Some err) ->
  exists pre c post,
    cs = (pre ++ c :: post)%list /\
    (forall c', List.In c' pre -> run c' = Return None) /\
    run c = Return (Some err).
Proof.
  induction cs as [|c cs IH]; simpl; intro H; [discriminate H|].
  destruct (run c) as [[e|]|msg] eqn:E; simpl in H; try discriminate H.
  - injection H as ->. exists [], c, cs. repeat split; [intros ? []|exact E].
  - destruct (IH H) as (pre & c' & post & -> & Hpre & Hc').
    exists (c :: pre), c', post. repeat split; [|exact Hc'].
    intros c'' [<-|Hin]; [exact E | now apply Hpre].
Qed.

Lemma firstFailure_total (cs : list A) :
  (forall c, List.In c cs -> exists r, run c = Return r) ->
  exists r, firstFailure run cs = Return r.
Proof.
  induction cs as [|c cs IH]; simpl; intro H; [eauto|].
  destruct (H c) as [[err|] ->]; [now left| |]; simpl; [eauto|].
  apply IH. intros c' Hc'. apply H. now right.
Qed.

End FirstFailure.

Section ValidateFacts.

Variable conv : type -> type -> bool.

Lemma inputLoop_firstFailure (doFunc callFunc : type) (idx : list Z) :
  inputLoop conv doFunc callFunc idx =
  firstFailure (fun i => onError (errInputArgument i) (inputCheck conv doFunc callFunc i)) idx.
Proof.
  induction idx as [|i idx IH]; simpl; [reflexivity|].
  unfold onError, inputCheck.
  destruct (In callFunc i) as [c|]; simpl; [|reflexivity].
  destruct (In doFunc i) as [d|]; simpl; [|reflexivity].
  destruct (validateArg conv d c) as [[err|]|]; simpl; auto.
Qed.

Lemma outputLoop_firstFailure (doFunc callFunc : type) (idx : list Z) :
  outputLoop conv doFunc callFunc idx =
  firstFailure (fun i => onError (errReturnArgument i) (outputCheck conv doFunc callFunc i)) idx.
Proof.
  induction idx as [|i idx IH]; simpl; [reflexivity|].
  unfold onError, outputCheck.
  destruct (Out callFunc i) as [c|]; simpl; [|reflexivity].
  destruct (Out doFunc i) as [d|]; simpl; [|reflexivity].
  destruct (validateArg conv d c) as [[err|]|]; simpl; auto.
Qed.

Lemma onError_None (f : error -> error) (r : result (option error)) :
  onError f r = Return None <-> r = Return None.
Proof.
  unfold onError. destruct r as [[e|]|]; simpl; split; intro H;
    try discriminate H; reflexivity.
Qed.

(** *** The matchers never panic on the types they are given *)

Lemma validateMapArg_total (doArg callArg : type) :
  Kind_of doArg = Map -> Kind_of callArg = Map ->
  exists r, validateMapArg conv doArg callArg = Return r.
Proof.
  intros Hd Hc. unfold validateMapArg.
  destruct (Kind_Map_Key _ Hc) as [ck ->], (Kind_Map_Key _ Hd) as [dk ->].
  destruct (Kind_Map_Elem _ Hc) as [ce ->], (Kind_Map_Elem _ Hd) as [de ->].
  simpl.
  match goal with |- exists r, match ?k with Some _ => _ | None => _ end = _ =>
    destruct k end; [eauto|].
  destruct (Kind_of ce); try destruct (validateInterfaceArg _ _ _);
    try destruct (negb _); eauto.
Qed.

Lemma validateArg_total (doArg callArg : type) :
  exists r, validateArg conv doArg callArg = Return r.
Proof.
  unfold validateArg.
  destruct (Kind_of callArg) eqn:Hc; [eauto..| | | | | | | ]; eauto;
    destruct (Kind_eqb _ (Kind_of doArg)) eqn:Hk; simpl; eauto;
    try (destruct (negb _); eauto; fail).
  apply Kind_eqb_eq in Hk. now apply validateMapArg_total.
Qed.

End ValidateFacts.

(** * The variadic argument *)

(** What [validateVariadicArg] computes from the two final parameter
    types: [subType] of the function given to [Do], [declaredType] of the
    mocked method, whose element type is [declaredElem]. *)
Lemma validateVariadicArg_eq (conv : type -> type -> bool)
    (lastIdx : Z) (doFunc callFunc subType declaredType declaredElem : type) :
  In doFunc (lastIdx - 1) = Return subType ->
  In callFunc (lastIdx - 1) = Return declaredType ->
  Elem declaredType = Return declaredElem ->
  validateVariadicArg conv lastIdx doFunc callFunc =
  if type_eqb subType declaredType then Return true
  else if negb (Kind_eqb (Kind_of subType) Slice) then Return false
  else if negb (Kind_eqb (Kind_of declaredElem) Interface) then Return false
  else subElem <- Elem subType ;; Return (conv subElem declaredElem).
Proof.
  intros Hd Hc He. unfold validateVariadicArg. rewrite Hd, Hc. simpl.
  destruct (type_eqb subType declaredType); simpl; [reflexivity|].
  destruct (Kind_eqb (Kind_of subType) Slice) eqn:Hs; simpl; [|reflexivity].
  rewrite He. simpl.
  destruct (Kind_eqb (Kind_of declaredElem) Interface); simpl; [|reflexivity].
  apply Kind_eqb_eq in Hs. destruct (Kind_Slice_Elem _ Hs) as [subElem ->].
  simpl. now destruct (conv subElem declaredElem).
Qed.

(** C1, as the code has it.  Let [subType] be the final parameter type
    of the substitute and [declaredType] the final parameter type of the
    declared variadic signature, a sequence of [declaredElem].  If
    [subType] is identical to [declaredType] the check succeeds.
    Otherwise [subType] must be of Slice kind and [declaredElem] of
    Interface kind, the check failing if either does not hold, and the
    check then succeeds if and only if the element type [subElem] of
    [subType] is convertible to [declaredElem]. *)
Theorem validateVariadicArg_rule (conv : type -> type -> bool)
    (lastIdx : Z) (doFunc callFunc subType declaredElem : type) :
  In doFunc (lastIdx - 1) = Return subType ->
  In callFunc (lastIdx - 1) = Return (SliceOf declaredElem) ->
  (subType = SliceOf declaredElem ->
   validateVariadicArg conv lastIdx doFunc callFunc = Return true) /\
  (subType <> SliceOf declaredElem -> Kind_of subType <> Slice ->
   validateVariadicArg conv lastIdx doFunc callFunc = Return false) /\
  (subType <> SliceOf declaredElem -> Kind_of declaredElem <> Interface ->
   validateVariadicArg conv lastIdx doFunc callFunc = Return false) /\
  (subType <> SliceOf declaredElem -> Kind_of subType = Slice ->
   Kind_of declaredElem = Interface ->
   exists subElem,
     Elem subType = Return subElem /\
     validateVariadicArg conv lastIdx doFunc callFunc =
       Return (conv subElem declaredElem)).
Proof.
  intros Hd Hc.
  rewrite (validateVariadicArg_eq conv _ _ _ _ _ declaredElem Hd Hc eq_refl).
  repeat split.
  - intros ->. now rewrite type_eqb_refl.
  - intros Hne Hk. apply type_eqb_neq in Hne. rewrite Hne.
    destruct (Kind_eqb (Kind_of subType) Slice) eqn:E; [|reflexivity].
    apply Kind_eqb_eq in E. contradiction.
  - intros Hne Hk. apply type_eqb_neq in Hne. rewrite Hne.
    destruct (Kind_eqb (Kind_of subType) Slice); [|reflexivity]. simpl.
    destruct (Kind_eqb (Kind_of declaredElem) Interface) eqn:E; [|reflexivity].
    apply Kind_eqb_eq in E. contradiction.
  - intros Hne Hs Hi. apply type_eqb_neq in Hne. rewrite Hne, Hs, Hi. simpl.
    destruct (Kind_Slice_Elem _ Hs) as [subElem ->]. eauto.
Qed.

(** Declared [func(...interface{}) bool], substitute [func([]string) bool],
    with the conversion of [string] to [interface{}]. *)
Lemma validateVariadicArg_rule_witness :
  validateVariadicArg convertible_core 1
    (FuncOf [SliceOf string_] [bool_] false)
    (FuncOf [SliceOf emptyInterface] [bool_] true) = Return true.
Proof.
  destruct (validateVariadicArg_rule convertible_core 1
              (FuncOf [SliceOf string_] [bool_] false)
              (FuncOf [SliceOf emptyInterface] [bool_] true)
              (SliceOf string_) emptyInterface eq_refl eq_refl)
    as (_ & _ & _ & H).
  destruct H as (subElem & He & ->); [discriminate | reflexivity | reflexivity |].
  injection He as <-. reflexivity.
Defined.

(** C1 as the specification states it fails on the code.  Declared
    [func(...interface{}) bool] with substitute [func([]int) bool] is
    accepted by the code, while the rule as stated rejects it ([int] is
    not of Interface kind); declared [func(...int) bool] with substitute
    [func(int) bool] is rejected by the code, while the rule as stated
    accepts it ([int] equals the declared element type). *)
Lemma variadicMatcher_spec_counterexample :
  (validateVariadicArg convertible_core 1
     (FuncOf [SliceOf int] [bool_] false)
     (FuncOf [SliceOf emptyInterface] [bool_] true) = Return true /\
   variadicMatcher_spec convertible_core (SliceOf int) emptyInterface
     = Return false) /\
  (validateVariadicArg convertible_core 1
     (FuncOf [int] [bool_] false)
     (FuncOf [SliceOf int] [bool_] true) = Return false /\
   variadicMatcher_spec convertible_core int int = Return true).
Proof. repeat split. Qed.

(** * The order of the checks *)

Section Checks.

Variable conv : type -> type -> bool.
Variables doFunc callFunc : type.

Lemma firstFailure_map {A B : Type} (run : B -> result (option error))
    (f : A -> B) (l : list A) :
  firstFailure run (map f l) = firstFailure (fun a => run (f a)) l.
Proof.
  induction l as [|a l IH]; simpl; [reflexivity|].
  destruct (run (f a)) as [[err|]|]; simpl; auto.
Qed.

(** [ValidateInputAndOutputSig] runs the checks of [traversal] in order
    and returns what the first failing one reports. *)
Lemma ValidateInputAndOutputSig_firstFailure (cs : list check) :
  traversal callFunc = Return cs ->
  ValidateInputAndOutputSig conv doFunc callFunc = firstFailure (runCheck conv doFunc callFunc) cs.
Proof.
  unfold traversal, ValidateInputAndOutputSig, variadicStep.
  destruct (NumIn callFunc) as [callIn|] eqn:HcallIn; simpl; [|discriminate].
  destruct (IsVariadic callFunc) as [variadic|]; simpl; [|discriminate].
  destruct (NumOut callFunc) as [callOut|] eqn:HcallOut; simpl; [|discriminate].
  intros [= <-]. simpl. rewrite HcallIn.
  destruct (NumIn doFunc) as [doIn|]; simpl; [|reflexivity].
  destruct (negb (doIn =? callIn)); simpl; [reflexivity|].
  assert (Hrest : forall lastIdx,
    (r <- inputLoop conv doFunc callFunc (range lastIdx) ;;
     match r with
     | Some err => Return (Some err)
     | None =>
         doOut <- NumOut doFunc ;;
         if negb (doOut =? callOut)
         then Return (Some (errReturnCount callOut doOut))
         else outputLoop conv doFunc callFunc (range callOut)
     end) =
    firstFailure (runCheck conv doFunc callFunc)
      (map InputArg (range lastIdx) ++ [ReturnArity]
       ++ map ReturnArg (range callOut))%list).
  { intro lastIdx.
    rewrite firstFailure_app, firstFailure_map, inputLoop_firstFailure. simpl.
    destruct (firstFailure _ (range lastIdx)) as [[err|]|]; simpl; try reflexivity.
    rewrite HcallOut.
    destruct (NumOut doFunc) as [doOut|]; simpl; [|reflexivity].
    destruct (negb (doOut =? callOut)); simpl; [reflexivity|].
    now rewrite firstFailure_map, outputLoop_firstFailure. }
  destruct variadic; simpl; [|apply Hrest].
  rewrite HcallIn. simpl.
  destruct (validateVariadicArg conv callIn doFunc callFunc) as [[|]|]; simpl;
    [apply Hrest| |reflexivity].
  destruct (In callFunc (callIn - 1)); simpl; [|reflexivity].
  destruct (In doFunc (callIn - 1)); simpl; reflexivity.
Qed.

End Checks.

(** * The argument matcher, case by case *)

Section ValidateArg.

Variable conv : type -> type -> bool.

Lemma validateInterfaceArg_None (doArg callArg : type) :
  validateInterfaceArg conv doArg callArg = None <-> conv doArg callArg = true.
Proof.
  unfold validateInterfaceArg. destruct (conv doArg callArg); simpl; split;
    intro H; try reflexivity; discriminate H.
Qed.

Lemma validateInterfaceArg_Some (doArg callArg : type) :
  conv doArg callArg = false ->
  validateInterfaceArg conv doArg callArg = Some (errNotConvertible callArg doArg).
Proof. unfold validateInterfaceArg. now intros ->. Qed.

Lemma validateArg_Interface (doArg callArg : type) :
  Kind_of callArg = Interface ->
  validateArg conv doArg callArg = Return (validateInterfaceArg conv doArg callArg).
Proof. unfold validateArg. now intros ->. Qed.

Lemma validateArg_Kind (doArg callArg : type) :
  Kind_of callArg <> Interface -> Kind_of callArg <> Kind_of doArg ->
  validateArg conv doArg callArg =
  Return (Some (errKind (Kind_of callArg) (Kind_of doArg))).
Proof.
  intros Hi Hk. unfold validateArg.
  destruct (Kind_eqb (Kind_of callArg) (Kind_of doArg)) eqn:E.
  - apply Kind_eqb_eq in E. contradiction.
  - simpl. destruct (Kind_of callArg); try reflexivity. contradiction.
Qed.

Lemma validateArg_Map (doArg callArg : type) :
  Kind_of callArg = Map -> Kind_of doArg = Map ->
  validateArg conv doArg callArg = validateMapArg conv doArg callArg.
Proof. unfold validateArg. now intros -> ->. Qed.

Lemma validateArg_other (doArg callArg : type) :
  Kind_of callArg <> Interface -> Kind_of callArg <> Map ->
  Kind_of doArg = Kind_of callArg ->
  validateArg conv doArg callArg =
  Return (if negb (type_eqb doArg callArg) then Some (errType callArg doArg)
          else None).
Proof.
  intros Hi Hm Hk. unfold validateArg. rewrite Hk, Kind_eqb_refl. simpl.
  destruct (Kind_of callArg); try contradiction;
    now destruct (type_eqb doArg callArg).
Qed.

(** Identical types are of the same kind, so outside interfaces and maps
    the matcher accepts exactly the identical type. *)
Lemma validateArg_identity (doArg callArg : type) :
  Kind_of callArg <> Interface -> Kind_of callArg <> Map ->
  (validateArg conv doArg callArg = Return None <-> doArg = callArg).
Proof.
  intros Hi Hm.
  destruct (Kind_eqb (Kind_of callArg) (Kind_of doArg)) eqn:Hk.
  - apply Kind_eqb_eq in Hk. rewrite validateArg_other by auto.
    destruct (type_eqb doArg callArg) eqn:E; simpl.
    + apply type_eqb_eq in E. tauto.
    + apply type_eqb_neq in E. split; [discriminate | contradiction].
  - assert (Hne : Kind_of callArg <> Kind_of doArg).
    { intro H. apply Kind_eqb_eq in H. congruence. }
    rewrite validateArg_Kind by auto.
    split; [discriminate | intros ->; contradiction].
Qed.

End ValidateArg.

(** * Validation of two function types *)

Section FuncTypes.

Variable conv : type -> type -> bool.
Variables doFunc callFunc : type.
Variables (dins douts cins couts : list type) (dv cv : bool).
Hypothesis Hdo : signature doFunc = Some (dins, douts, dv).
Hypothesis Hcall : signature callFunc = Some (cins, couts, cv).

Lemma traversal_signature :
  traversal callFunc =
  Return ([InputArity]
          ++ (if cv then [VariadicArg] else [])
          ++ map InputArg (range (if cv then Z.of_nat (List.length cins) - 1
                                  else Z.of_nat (List.length cins)))
          ++ [ReturnArity]
          ++ map ReturnArg (range (Z.of_nat (List.length couts))))%list.
Proof using Hcall.
  unfold traversal.
  now rewrite (signature_NumIn _ _ _ _ Hcall), (signature_IsVariadic _ _ _ _ Hcall),
    (signature_NumOut _ _ _ _ Hcall).
Qed.

Lemma inputCheck_total (i : Z) :
  List.length dins = List.length cins ->
  0 <= i < Z.of_nat (List.length cins) ->
  exists r, inputCheck conv doFunc callFunc i = Return r.
Proof using Hdo Hcall.
  intros Hlen Hi. unfold inputCheck.
  rewrite (signature_In _ _ _ _ Hcall), (signature_In _ _ _ _ Hdo).
  destruct (index_in_range cins i Hi) as [c ->].
  destruct (index_in_range dins i) as [d ->]; [lia|]. simpl.
  apply validateArg_total.
Qed.

Lemma outputCheck_total (i : Z) :
  List.length douts = List.length couts ->
  0 <= i < Z.of_nat (List.length couts) ->
  exists r, outputCheck conv doFunc callFunc i = Return r.
Proof using Hdo Hcall.
  intros Hlen Hi. unfold outputCheck.
  rewrite (signature_Out _ _ _ _ Hcall), (signature_Out _ _ _ _ Hdo).
  destruct (index_in_range couts i Hi) as [c ->].
  destruct (index_in_range douts i) as [d ->]; [lia|]. simpl.
  apply validateArg_total.
Qed.

Lemma onError_total (f : error -> error) (r : result (option error)) :
  (exists o, r = Return o) -> exists o, onError f r = Return o.
Proof. intros [o ->]. unfold onError. simpl. eauto. Qed.

Lemma inputLoop_total (lastIdx : Z) :
  List.length dins = List.length cins ->
  lastIdx <= Z.of_nat (List.length cins) ->
  exists r, inputLoop conv doFunc callFunc (range lastIdx) = Return r.
Proof using Hdo Hcall.
  intros Hlen Hlast. rewrite inputLoop_firstFailure.
  apply firstFailure_total. intros i Hi. apply in_range in Hi.
  apply onError_total, inputCheck_total; [exact Hlen | lia].
Qed.

Lemma outputLoop_total :
  List.length douts = List.length couts ->
  exists r, outputLoop conv doFunc callFunc
              (range (Z.of_nat (List.length couts))) = Return r.
Proof using Hdo Hcall.
  intros Hlen. rewrite outputLoop_firstFailure.
  apply firstFailure_total. intros i Hi. apply in_range in Hi.
  apply onError_total, outputCheck_total; [exact Hlen | lia].
Qed.

Lemma validateVariadicArg_total (lastIdx : Z) (subType declaredElem : type) :
  In doFunc (lastIdx - 1) = Return subType ->
  In callFunc (lastIdx - 1) = Return (SliceOf declaredElem) ->
  exists ok, validateVariadicArg conv lastIdx doFunc callFunc = Return ok.
Proof.
  intros Hd Hc.
  rewrite (validateVariadicArg_eq conv _ _ _ _ _ declaredElem Hd Hc eq_refl).
  destruct (type_eqb _ _); [eauto|].
  destruct (Kind_eqb (Kind_of subType) Slice) eqn:Hs; simpl; [|eauto].
  destruct (Kind_eqb (Kind_of declaredElem) Interface); simpl; [|eauto].
  apply Kind_eqb_eq in Hs. destruct (Kind_Slice_Elem _ Hs) as [subElem ->].
  simpl. eauto.
Qed.

(** For two function types, the second well formed, validation returns:
    no call into [reflect] panics. *)
Lemma ValidateInputAndOutputSig_total :
  variadic_ok cins cv ->
  exists r, ValidateInputAndOutputSig conv doFunc callFunc = Return r.
Proof using Hdo Hcall.
  intros Hv. unfold ValidateInputAndOutputSig, variadicStep.
  rewrite (signature_NumIn _ _ _ _ Hcall), (signature_NumIn _ _ _ _ Hdo),
    (signature_IsVariadic _ _ _ _ Hcall).
  simpl.
  destruct (Z.eqb_spec (Z.of_nat (List.length dins)) (Z.of_nat (List.length cins)))
    as [Hlen|Hlen]; simpl; [|eauto].
  apply Nat2Z.inj in Hlen.
  assert (Hrest : forall lastIdx, lastIdx <= Z.of_nat (List.length cins) ->
    exists r,
      (r <- inputLoop conv doFunc callFunc (range lastIdx) ;;
       match r with
       | Some err => Return (Some err)
       | None =>
           doOut <- NumOut doFunc ;;
           callOut <- NumOut callFunc ;;
           if negb (doOut =? callOut)
           then Return (Some (errReturnCount callOut doOut))
           else outputLoop conv doFunc callFunc (range callOut)
       end) = Return r).
  { intros lastIdx Hlast.
    destruct (inputLoop_total lastIdx Hlen Hlast) as [[err|] ->]; simpl; [eauto|].
    rewrite (signature_NumOut _ _ _ _ Hcall), (signature_NumOut _ _ _ _ Hdo).
    simpl.
    destruct (Z.eqb_spec (Z.of_nat (List.length douts)) (Z.of_nat (List.length couts)))
      as [Hout|Hout]; simpl; [|eauto].
    apply Nat2Z.inj in Hout. now apply outputLoop_total. }
  destruct cv; simpl; [|apply Hrest; lia].
  destruct (Hv eq_refl) as (init & e & Hins).
  assert (Hc : In callFunc (Z.of_nat (List.length cins) - 1) = Return (SliceOf e)).
  { rewrite (signature_In _ _ _ _ Hcall), Hins. apply index_last. }
  destruct (index_in_range dins (Z.of_nat (List.length cins) - 1)) as [d Hd].
  { rewrite Hlen, Hins, length_app. simpl. lia. }
  rewrite <- (signature_In _ _ _ _ Hdo) in Hd.
  destruct (validateVariadicArg_total _ _ _ Hd Hc) as [[|] ->]; simpl.
  - apply Hrest. lia.
  - rewrite Hc, Hd. simpl. eauto.
Qed.

(** An accepted pair of function types passes every check. *)
Lemma ValidateInputAndOutputSig_None (c : check) (cs : list check) :
  traversal callFunc = Return cs ->
  ValidateInputAndOutputSig conv doFunc callFunc = Return None ->
  List.In c cs -> runCheck conv doFunc callFunc c = Return None.
Proof.
  intros Hcs Hv. rewrite (ValidateInputAndOutputSig_firstFailure _ _ _ _ Hcs) in Hv.
  now apply firstFailure_None.
Qed.

End FuncTypes.

(** * Claims about the variadic argument and the end-to-end scenarios *)

(** C2.  A declared variadic parameter of element type [E] is satisfied
    by a substitute whose corresponding parameter is the ordinary
    sequence [[]E]; declared [func(...int) bool] with substitute
    [func([]int) bool] validates, and so does declared
    [func(...interface{}) bool] with substitute [func([]int) bool], [int]
    being convertible to [interface{}]. *)
Theorem variadic_accepts_sequence (conv : type -> type -> bool) :
  conv int emptyInterface = true ->
  (forall (lastIdx : Z) (doFunc callFunc E : type),
     In doFunc (lastIdx - 1) = Return (SliceOf E) ->
     In callFunc (lastIdx - 1) = Return (SliceOf E) ->
     validateVariadicArg conv lastIdx doFunc callFunc = Return true) /\
  ValidateInputAndOutputSig conv
    (FuncOf [SliceOf int] [bool_] false)
    (FuncOf [SliceOf int] [bool_] true) = Return None /\
  ValidateInputAndOutputSig conv
    (FuncOf [SliceOf int] [bool_] false)
    (FuncOf [SliceOf emptyInterface] [bool_] true) = Return None.
Proof.
  intro Hconv. split; [|split].
  - intros lastIdx doFunc callFunc E Hd Hc.
    rewrite (validateVariadicArg_eq conv _ _ _ _ _ E Hd Hc eq_refl).
    now rewrite type_eqb_refl.
  - vm_compute. reflexivity.
  - unfold ValidateInputAndOutputSig, variadicStep, validateVariadicArg.
    simpl. rewrite Hconv. reflexivity.
Qed.

Lemma variadic_accepts_sequence_witness :
  convertible_core int emptyInterface = true /\
  validateVariadicArg convertible_core 2
    (FuncOf [string_; SliceOf int] [bool_] false)
    (FuncOf [string_; SliceOf int] [bool_] true) = Return true.
Proof.
  split; [reflexivity|].
  exact (proj1 (variadic_accepts_sequence convertible_core eq_refl)
           2 (FuncOf [string_; SliceOf int] [bool_] false)
           (FuncOf [string_; SliceOf int] [bool_] true) int eq_refl eq_refl).
Defined.

Lemma int_string_kind_mismatch_aux (conv : type -> type -> bool) :
  ValidateInputAndOutputSig conv
    (FuncOf [string_] [bool_] false) (FuncOf [int] [bool_] false)
  = Return (Some (errInputArgument 0 (errKind Int String))) /\
  Error (errInputArgument 0 (errKind Int String))
  = "input argument at 0: expected arg of kind int not string".
Proof. split; reflexivity. Qed.

(** C3, as the code has it.  For declared [func(int) bool] and
    substitute [func(string) bool] validation fails at input position 0
    with the kind mismatch of line 162: [int] and [string] are of
    different kinds, so the comparison of the types themselves (line 174)
    is not reached. *)
Theorem int_string_kind_mismatch (conv : type -> type -> bool) :
  ValidateInputAndOutputSig conv
    (FuncOf [string_] [bool_] false) (FuncOf [int] [bool_] false)
  = Return (Some (errInputArgument 0 (errKind Int String))) /\
  Error (errInputArgument 0 (errKind Int String))
  = "input argument at 0: expected arg of kind int not string".
Proof. exact (int_string_kind_mismatch_aux conv). Qed.

(** C3 as stated fails: the failure reported at input position 0 is not
    the type mismatch of line 175, whatever types it would name. *)
Lemma int_string_not_type_mismatch :
  ~ exists (callArg doArg : type),
      ValidateInputAndOutputSig convertible_core
        (FuncOf [string_] [bool_] false) (FuncOf [int] [bool_] false)
      = Return (Some (errInputArgument 0 (errType callArg doArg))).
Proof.
  intros (callArg & doArg & H).
  rewrite (proj1 (int_string_kind_mismatch_aux convertible_core)) in H.
  discriminate H.
Qed.

(** * Claims about the argument matcher *)

Lemma inputCheck_at (conv : type -> type -> bool)
    (doFunc callFunc : type) (i : Z) (doArg callArg : type) :
  input_at doFunc callFunc i doArg callArg ->
  inputCheck conv doFunc callFunc i = validateArg conv doArg callArg.
Proof. intros [Hd Hc]. unfold inputCheck. now rewrite Hc, Hd. Qed.

Lemma outputCheck_at (conv : type -> type -> bool)
    (doFunc callFunc : type) (i : Z) (doArg callArg : type) :
  output_at doFunc callFunc i doArg callArg ->
  outputCheck conv doFunc callFunc i = validateArg conv doArg callArg.
Proof. intros [Hd Hc]. unfold outputCheck. now rewrite Hc, Hd. Qed.

(** In a variadic function type the final parameter is a slice, so a
    parameter of another kind is one of those the loop visits. *)
Lemma input_at_positional (doFunc callFunc : type)
    (cins couts : list type) (cv : bool) (i : Z) (doArg callArg : type) :
  signature callFunc = Some (cins, couts, cv) ->
  variadic_ok cins cv ->
  input_at doFunc callFunc i doArg callArg ->
  Kind_of callArg <> Slice ->
  0 <= i < (if cv then Z.of_nat (List.length cins) - 1
            else Z.of_nat (List.length cins)).
Proof.
  intros Hcall Hv [_ Hc] Hk. rewrite (signature_In _ _ _ _ Hcall) in Hc.
  pose proof (index_range _ _ _ Hc) as Hi.
  destruct cv; [|exact Hi].
  destruct (Z.eq_dec i (Z.of_nat (List.length cins) - 1)) as [->|Hne]; [|lia].
  destruct (Hv eq_refl) as (init & e & ->).
  rewrite index_last in Hc. injection Hc as <-. now contradiction Hk.
Qed.

(** What a rejected position does to the whole validation: the function
    types are rejected, with some error. *)
Lemma rejected_input (conv : type -> type -> bool) (doFunc callFunc : type)
    (dins douts cins couts : list type) (dv cv : bool) (i : Z) (err : error) :
  signature doFunc = Some (dins, douts, dv) ->
  signature callFunc = Some (cins, couts, cv) ->
  variadic_ok cins cv ->
  0 <= i < (if cv then Z.of_nat (List.length cins) - 1
            else Z.of_nat (List.length cins)) ->
  inputCheck conv doFunc callFunc i = Return (Some err) ->
  exists err', ValidateInputAndOutputSig conv doFunc callFunc = Return (Some err').
Proof.
  intros Hdo Hcall Hv Hi Hcheck.
  destruct (ValidateInputAndOutputSig_total conv _ _ _ _ _ _ _ _ Hdo Hcall Hv)
    as [[err'|] Hr]; [eauto|].
  pose proof (ValidateInputAndOutputSig_None conv _ _ (InputArg i) _
                (traversal_signature _ _ _ _ Hcall) Hr) as Hnone.
  simpl in Hnone. rewrite onError_None, Hcheck in Hnone.
  assert (Hin : List.In (InputArg i)
                  (InputArity :: ((if cv then [VariadicArg] else []) ++
                   map InputArg (range (if cv then Z.of_nat (List.length cins) - 1
                                        else Z.of_nat (List.length cins))) ++
                   ReturnArity :: map ReturnArg (range (Z.of_nat (List.length couts)))))%list).
  { right. apply in_or_app. right. apply in_or_app. left.
    apply in_map. now apply in_range. }
  specialize (Hnone Hin). discriminate Hnone.
Qed.

Lemma rejected_output (conv : type -> type -> bool) (doFunc callFunc : type)
    (dins douts cins couts : list type) (dv cv : bool) (i : Z) (err : error) :
  signature doFunc = Some (dins, douts, dv) ->
  signature callFunc = Some (cins, couts, cv) ->
  variadic_ok cins cv ->
  0 <= i < Z.of_nat (List.length couts) ->
  outputCheck conv doFunc callFunc i = Return (Some err) ->
  exists err', ValidateInputAndOutputSig conv doFunc callFunc = Return (Some err').
Proof.
  intros Hdo Hcall Hv Hi Hcheck.
  destruct (ValidateInputAndOutputSig_total conv _ _ _ _ _ _ _ _ Hdo Hcall Hv)
    as [[err'|] Hr]; [eauto|].
  pose proof (ValidateInputAndOutputSig_None conv _ _ (ReturnArg i) _
                (traversal_signature _ _ _ _ Hcall) Hr) as Hnone.
  simpl in Hnone. rewrite onError_None, Hcheck in Hnone.
  assert (Hin : List.In (ReturnArg i)
                  (InputArity :: ((if cv then [VariadicArg] else []) ++
                   map InputArg (range (if cv then Z.of_nat (List.length cins) - 1
                                        else Z.of_nat (List.length cins))) ++
                   ReturnArity :: map ReturnArg (range (Z.of_nat (List.length couts)))))%list).
  { right. apply in_or_app. right. apply in_or_app. right. right.
    apply in_map. now apply in_range. }
  specialize (Hnone Hin). discriminate Hnone.
Qed.

(** C4.  At an input or return position whose declared type is of
    Interface kind, the argument matcher succeeds if and only if the
    substitute's type at that position is convertible to the declared
    interface type; a substitute type that is not convertible is
    rejected, by the matcher with the error of line 107 and by the
    validation of the two function types as a whole. *)
Theorem interface_position (conv : type -> type -> bool)
    (doFunc callFunc : type)
    (dins douts cins couts : list type) (dv cv : bool)
    (i : Z) (doArg callArg : type) :
  signature doFunc = Some (dins, douts, dv) ->
  signature callFunc = Some (cins, couts, cv) ->
  variadic_ok cins cv ->
  input_at doFunc callFunc i doArg callArg \/
  output_at doFunc callFunc i doArg callArg ->
  Kind_of callArg = Interface ->
  (validateArg conv doArg callArg = Return None <-> conv doArg callArg = true) /\
  (conv doArg callArg = false ->
   validateArg conv doArg callArg
     = Return (Some (errNotConvertible callArg doArg)) /\
   exists err,
     ValidateInputAndOutputSig conv doFunc callFunc = Return (Some err)).
Proof.
  intros Hdo Hcall Hv Hat Hk.
  rewrite validateArg_Interface by exact Hk. split.
  - split.
    + intros [= H]. now apply validateInterfaceArg_None.
    + intro H. f_equal. now apply validateInterfaceArg_None.
  - intro Hconv.
    assert (Hr : validateArg conv doArg callArg
                 = Return (Some (errNotConvertible callArg doArg))).
    { rewrite validateArg_Interface by exact Hk.
      now rewrite validateInterfaceArg_Some. }
    split; [now rewrite validateInterfaceArg_Some|].
    destruct Hat as [Hat|Hat].
    + eapply (rejected_input conv _ _ _ _ _ _ _ _ i _ Hdo Hcall Hv).
      * eapply input_at_positional; eauto. rewrite Hk. discriminate.
      * rewrite (inputCheck_at _ _ _ _ _ _ Hat). exact Hr.
    + eapply (rejected_output conv _ _ _ _ _ _ _ _ i _ Hdo Hcall Hv).
      * destruct Hat as [_ Hc]. rewrite (signature_Out _ _ _ _ Hcall) in Hc.
        exact (index_range _ _ _ Hc).
      * rewrite (outputCheck_at _ _ _ _ _ _ Hat). exact Hr.
Qed.

(** Declared [func(int) error], substitute [func(int) bool]: [bool] does
    not convert to [error]. *)
Lemma interface_position_witness :
  validateArg convertible_core bool_ error_
    = Return (Some (errNotConvertible error_ bool_)) /\
  exists err,
    ValidateInputAndOutputSig convertible_core
      (FuncOf [int] [bool_] false) (FuncOf [int] [error_] false)
    = Return (Some err).
Proof.
  apply (interface_position convertible_core
           (FuncOf [int] [bool_] false) (FuncOf [int] [error_] false)
           [int] [bool_] [int] [error_] false false 0 bool_ error_
           eq_refl eq_refl).
  - intro H. discriminate H.
  - right. split; reflexivity.
  - reflexivity.
  - reflexivity.
Defined.




(** * The mapping matcher *)

Section MapArg.

Variable conv : type -> type -> bool.

Lemma slot_ok_dec (doT callT : type) :
  {slot_ok conv doT callT} + {~ slot_ok conv doT callT}.
Proof.
  unfold slot_ok.
  destruct (Kind_of callT);
    try (destruct (type_eqb doT callT) eqn:E;
         [left; now apply type_eqb_eq | right; now apply type_eqb_neq]).
  destruct (conv doT callT); [now left | right; discriminate].
Qed.

(** The key part of [validateMapArg], lines 120-130. *)
Lemma key_slot (doKey callKey : type) :
  match Kind_of callKey with
  | Interface =>
      match validateInterfaceArg conv doKey callKey with
      | Some err => Some (Wrap err "map key")
      | None => None
      end
  | _ =>
      if negb (type_eqb doKey callKey) then Some (errMapKey callKey doKey)
      else None
  end =
  if slot_ok_dec doKey callKey then None
  else Some (slot_error "map key" errMapKey doKey callKey).
Proof.
  destruct (slot_ok_dec doKey callKey) as [H|H]; unfold slot_ok, slot_error in *;
    destruct (Kind_of callKey);
    try (apply type_eqb_eq in H; now rewrite H);
    try (apply type_eqb_neq in H; now rewrite H).
  - apply validateInterfaceArg_None in H. now rewrite H.
  - apply not_true_is_false in H. now rewrite validateInterfaceArg_Some.
Qed.

(** The element part of [validateMapArg], lines 135-145. *)
Lemma element_slot (doElem callElem : type) :
  match Kind_of callElem with
  | Interface =>
      match validateInterfaceArg conv doElem callElem with
      | Some err => Return (Some (Wrap err "map element"))
      | None => Return None
      end
  | _ =>
      if negb (type_eqb doElem callElem) then
        Return (Some (errMapElement callElem doElem))
      else Return None
  end =
  if slot_ok_dec doElem callElem then Return None
  else Return (Some (slot_error "map element" errMapElement doElem callElem)).
Proof.
  destruct (slot_ok_dec doElem callElem) as [H|H]; unfold slot_ok, slot_error in *;
    destruct (Kind_of callElem);
    try (apply type_eqb_eq in H; now rewrite H);
    try (apply type_eqb_neq in H; now rewrite H).
  - apply validateInterfaceArg_None in H. now rewrite H.
  - apply not_true_is_false in H. now rewrite validateInterfaceArg_Some.
Qed.

Lemma validateMapArg_eq (doArg callArg callKey doKey callElem doElem : type) :
  Key callArg = Return callKey -> Key doArg = Return doKey ->
  Elem callArg = Return callElem -> Elem doArg = Return doElem ->
  validateMapArg conv doArg callArg =
  if slot_ok_dec doKey callKey then
    if slot_ok_dec doElem callElem then Return None
    else Return (Some (slot_error "map element" errMapElement doElem callElem))
  else Return (Some (slot_error "map key" errMapKey doKey callKey)).
Proof.
  intros Hck Hdk Hce Hde. unfold validateMapArg. rewrite Hck, Hdk. simpl.
  rewrite key_slot. destruct (slot_ok_dec doKey callKey); [|reflexivity].
  rewrite Hce, Hde. simpl. apply element_slot.
Qed.

Lemma slot_error_qualified_key (doT callT : type) :
  qualified "map key" (slot_error "map key" errMapKey doT callT).
Proof. unfold slot_error, qualified. destruct (Kind_of callT); simpl; auto. Qed.

Lemma slot_error_qualified_element (doT callT : type) :
  qualified "map element" (slot_error "map element" errMapElement doT callT).
Proof. unfold slot_error, qualified. destruct (Kind_of callT); simpl; auto. Qed.

End MapArg.

(** C5.  For two types of Map kind, with their key and element types:
    the key slot is accepted by convertibility when the declared key
    type is of Interface kind and by identity otherwise, the element slot
    the same way; the matcher succeeds exactly when both are accepted;
    a key that is not accepted is reported whatever the elements are,
    with the qualifier [map key], and otherwise an element that is not
    accepted is reported with the qualifier [map element]. *)
Theorem mapping_matcher (conv : type -> type -> bool)
    (doArg callArg callKey doKey callElem doElem : type) :
  Key callArg = Return callKey -> Key doArg = Return doKey ->
  Elem callArg = Return callElem -> Elem doArg = Return doElem ->
  (validateMapArg conv doArg callArg = Return None <->
   slot_ok conv doKey callKey /\ slot_ok conv doElem callElem) /\
  (~ slot_ok conv doKey callKey ->
   validateMapArg conv doArg callArg
     = Return (Some (slot_error "map key" errMapKey doKey callKey)) /\
   qualified "map key" (slot_error "map key" errMapKey doKey callKey)) /\
  (slot_ok conv doKey callKey -> ~ slot_ok conv doElem callElem ->
   validateMapArg conv doArg callArg
     = Return (Some (slot_error "map element" errMapElement doElem callElem)) /\
   qualified "map element"
     (slot_error "map element" errMapElement doElem callElem)).
Proof.
  intros Hck Hdk Hce Hde.
  rewrite (validateMapArg_eq conv _ _ _ _ _ _ Hck Hdk Hce Hde).
  destruct (slot_ok_dec conv doKey callKey) as [Hk|Hk];
    destruct (slot_ok_dec conv doElem callElem) as [He|He];
    (split; [split; [intro H; try discriminate H; tauto | tauto] | split]);
    try tauto; intros; split;
    try reflexivity; try contradiction;
    try apply slot_error_qualified_key; try apply slot_error_qualified_element.
Qed.

(** Declared [map[interface{}]int], substitute [map[int]string] (the
    test "is a map" of call_test.go): the key converts, the element is of
    another type. *)
Lemma mapping_matcher_witness :
  validateMapArg convertible_core (MapOf int string_) (MapOf emptyInterface int)
    = Return (Some (errMapElement int string_)) /\
  qualified "map element" (errMapElement int string_).
Proof.
  apply (mapping_matcher convertible_core
           (MapOf int string_) (MapOf emptyInterface int)
           emptyInterface int int string_ eq_refl eq_refl eq_refl eq_refl).
  - reflexivity.
  - intro H. discriminate H.
Defined.

(** * When the mapping matcher is called *)

(** C10.  [validateArg] calls [validateMapArg] only on two types of Map
    kind: replacing [validateMapArg] by any function that agrees with it
    on such pairs leaves [validateArg] unchanged.  On two types of Map
    kind the four accesses [Key] and [Elem] of [validateMapArg] are
    defined and [validateMapArg] returns; hence [validateArg] returns on
    every pair of types. *)
Theorem validateMapArg_called_on_maps (conv : type -> type -> bool) :
  (forall doArg callArg : type,
     validateArg conv doArg callArg
     = validateArg_with conv (validateMapArg conv) doArg callArg) /\
  (forall (mapArg mapArg' : type -> type -> result (option error))
          (doArg callArg : type),
     (forall d c : type, Kind_of d = Map -> Kind_of c = Map ->
                         mapArg d c = mapArg' d c) ->
     validateArg_with conv mapArg doArg callArg
     = validateArg_with conv mapArg' doArg callArg) /\
  (forall doArg callArg : type,
     Kind_of callArg = Map -> Kind_of doArg = Kind_of callArg ->
     (exists callKey doKey callElem doElem,
        Key callArg = Return callKey /\ Key doArg = Return doKey /\
        Elem callArg = Return callElem /\ Elem doArg = Return doElem) /\
     exists r, validateMapArg conv doArg callArg = Return r) /\
  (forall doArg callArg : type,
     exists r, validateArg conv doArg callArg = Return r).
Proof.
  split; [reflexivity|]. split; [|split].
  - intros mapArg mapArg' doArg callArg Hagree. unfold validateArg_with.
    destruct (Kind_of callArg) eqn:Hc; try reflexivity.
    destruct (Kind_eqb Map (Kind_of doArg)) eqn:Hd; simpl; [|reflexivity].
    apply Kind_eqb_eq in Hd. now apply Hagree.
  - intros doArg callArg Hc Hd. rewrite Hc in Hd. split.
    + destruct (Kind_Map_Key _ Hc) as [callKey ->], (Kind_Map_Key _ Hd) as [doKey ->].
      destruct (Kind_Map_Elem _ Hc) as [callElem ->],
               (Kind_Map_Elem _ Hd) as [doElem ->].
      now exists callKey, doKey, callElem, doElem.
    + now apply validateMapArg_total.
  - intros doArg callArg. apply validateArg_total.
Qed.

(** * Reflexivity *)

Lemma validateArg_refl (conv : type -> type -> bool) (t : type) :
  (forall u, conv u u = true) -> validateArg conv t t = Return None.
Proof.
  intro Hrefl.
  assert (Hslot : forall u, slot_ok conv u u).
  { intro u. unfold slot_ok. destruct (Kind_of u); auto. }
  destruct (Kind_eqb (Kind_of t) Interface) eqn:Hi.
  - apply Kind_eqb_eq in Hi. rewrite validateArg_Interface by exact Hi.
    f_equal. now apply validateInterfaceArg_None.
  - assert (Hni : Kind_of t <> Interface).
    { intro H. rewrite H in Hi. discriminate Hi. }
    destruct (Kind_eqb (Kind_of t) Map) eqn:Hm.
    + apply Kind_eqb_eq in Hm. rewrite validateArg_Map by exact Hm.
      destruct (Kind_Map_Key _ Hm) as [k Hk], (Kind_Map_Elem _ Hm) as [e He].
      rewrite (validateMapArg_eq conv _ _ _ _ _ _ Hk Hk He He).
      destruct (slot_ok_dec conv k k) as [_|H]; [|now contradiction H].
      destruct (slot_ok_dec conv e e) as [_|H]; [reflexivity|now contradiction H].
    + apply validateArg_identity; [exact Hni| |reflexivity].
      intro H. rewrite H in Hm. discriminate Hm.
Qed.

(** C9.  Every function type validates against itself.  A function type
    is a type of kind Func whose final parameter, when the function is
    variadic, is a slice; the conversion of a type to itself is a rule of
    Go. *)
Theorem ValidateInputAndOutputSig_refl (conv : type -> type -> bool) (S : type) :
  (forall t, conv t t = true) ->
  func_type S ->
  ValidateInputAndOutputSig conv S S = Return None.
Proof.
  intros Hrefl (ins & outs & v & Hsig & Hv).
  rewrite (ValidateInputAndOutputSig_firstFailure conv S S _
             (traversal_signature _ _ _ _ Hsig)).
  apply firstFailure_pass. intros c Hc. simpl in Hc.
  destruct Hc as [<-|Hc].
  { simpl. rewrite (signature_NumIn _ _ _ _ Hsig). simpl.
    now rewrite Z.eqb_refl. }
  apply in_app_or in Hc. destruct Hc as [Hc|Hc].
  { destruct v; [|contradiction]. destruct Hc as [<-|[]].
    destruct (Hv eq_refl) as (init & e & Hins). simpl.
    rewrite (signature_NumIn _ _ _ _ Hsig). simpl.
    assert (Hlast : In S (Z.of_nat (List.length ins) - 1) = Return (SliceOf e)).
    { rewrite (signature_In _ _ _ _ Hsig), Hins. apply index_last. }
    rewrite (validateVariadicArg_eq conv _ _ _ _ _ e Hlast Hlast eq_refl).
    now rewrite type_eqb_refl. }
  apply in_app_or in Hc. destruct Hc as [Hc|Hc].
  { apply in_map_iff in Hc. destruct Hc as (i & <- & Hi). apply in_range in Hi.
    simpl. apply onError_None. unfold inputCheck.
    rewrite (signature_In _ _ _ _ Hsig).
    destruct (index_in_range ins i) as [t ->]; [destruct v; lia|]. simpl.
    now apply validateArg_refl. }
  destruct Hc as [<-|Hc].
  { simpl. rewrite (signature_NumOut _ _ _ _ Hsig). simpl.
    now rewrite Z.eqb_refl. }
  apply in_map_iff in Hc. destruct Hc as (i & <- & Hi). apply in_range in Hi.
  simpl. apply onError_None. unfold outputCheck.
  rewrite (signature_Out _ _ _ _ Hsig).
  destruct (index_in_range outs i Hi) as [t ->]. simpl.
  now apply validateArg_refl.
Qed.

Lemma ValidateInputAndOutputSig_refl_witness :
  ValidateInputAndOutputSig convertible_core
    (FuncOf [string_; MapOf emptyInterface error_; SliceOf emptyInterface]
            [bool_; error_] true)
    (FuncOf [string_; MapOf emptyInterface error_; SliceOf emptyInterface]
            [bool_; error_] true)
  = Return None.
Proof.
  apply ValidateInputAndOutputSig_refl.
  - intro t. unfold convertible_core. now rewrite type_eqb_refl.
  - exists [string_; MapOf emptyInterface error_; SliceOf emptyInterface],
      [bool_; error_], true.
    split; [reflexivity|]. intros _.
    now exists [string_; MapOf emptyInterface error_], emptyInterface.
Defined.

(** * Arity and the order of the checks *)

(** C7.  With [N] declared parameters and [M <> N] parameters of the
    substitute, a variadic parameter counting for one, validation fails
    with the error of line 30, whose text names [N] and [M].  With as
    many parameters, once every check of the input side has passed, return
    lists of different lengths fail with the error of line 64. *)
Theorem arity_mismatch (conv : type -> type -> bool) (doFunc callFunc : type)
    (dins douts cins couts : list type) (dv cv : bool) :
  signature doFunc = Some (dins, douts, dv) ->
  signature callFunc = Some (cins, couts, cv) ->
  (List.length dins <> List.length cins ->
   ValidateInputAndOutputSig conv doFunc callFunc
   = Return (Some (errArgCount (Z.of_nat (List.length cins))
                               (Z.of_nat (List.length dins)))) /\
   Error (errArgCount (Z.of_nat (List.length cins)) (Z.of_nat (List.length dins)))
   = "Do: expected function to have "
     ++ Z_String (Z.of_nat (List.length cins)) ++ " arguments not "
     ++ Z_String (Z.of_nat (List.length dins))) /\
  (forall cs : list check,
     traversal callFunc = Return cs ->
     (forall c, List.In c cs -> input_check c = true ->
                runCheck conv doFunc callFunc c = Return None) ->
     List.length douts <> List.length couts ->
     ValidateInputAndOutputSig conv doFunc callFunc
     = Return (Some (errReturnCount (Z.of_nat (List.length couts))
                                    (Z.of_nat (List.length douts)))) /\
     Error (errReturnCount (Z.of_nat (List.length couts))
                           (Z.of_nat (List.length douts)))
     = "Do: expected function to have "
       ++ Z_String (Z.of_nat (List.length couts)) ++ " return vals not "
       ++ Z_String (Z.of_nat (List.length douts))).
Proof.
  intros Hdo Hcall. split.
  - intro Hlen. split; [|reflexivity].
    unfold ValidateInputAndOutputSig.
    rewrite (signature_NumIn _ _ _ _ Hdo), (signature_NumIn _ _ _ _ Hcall). simpl.
    destruct (Z.eqb_spec (Z.of_nat (List.length dins)) (Z.of_nat (List.length cins)))
      as [H|H]; [apply Nat2Z.inj in H; contradiction | reflexivity].
  - intros cs Hcs Hpass Hlen. split; [|reflexivity].
    rewrite (ValidateInputAndOutputSig_firstFailure conv _ _ _ Hcs).
    rewrite (traversal_signature _ _ _ _ Hcall) in Hcs. injection Hcs as Hcs.
    set (pre := (InputArity :: (if cv then [VariadicArg] else []) ++
                 map InputArg (range (if cv then Z.of_nat (List.length cins) - 1
                                      else Z.of_nat (List.length cins))))%list).
    assert (Hsplit : cs = (pre ++ ReturnArity
                           :: map ReturnArg (range (Z.of_nat (List.length couts))))%list).
    { subst cs pre. simpl. now rewrite <- app_assoc. }
    rewrite Hsplit. apply firstFailure_fail.
    + intros c Hc. apply Hpass.
      * rewrite Hsplit. apply in_or_app. now left.
      * destruct Hc as [<-|Hc]; [reflexivity|].
        apply in_app_or in Hc as [Hc|Hc].
        -- destruct cv; [|contradiction]. now destruct Hc as [<-|[]].
        -- apply in_map_iff in Hc. now destruct Hc as (i & <- & _).
    + simpl.
      rewrite (signature_NumOut _ _ _ _ Hdo), (signature_NumOut _ _ _ _ Hcall).
      simpl.
      destruct (Z.eqb_spec (Z.of_nat (List.length douts)) (Z.of_nat (List.length couts)))
        as [H|H]; [apply Nat2Z.inj in H; contradiction | reflexivity].
Qed.

(** Declared [func(int, int) bool] against [func(int) bool], and declared
    [func(int) (bool, error)] against [func(int) bool] (the tests "number
    of args" and "number of return vals" of call_test.go). *)
Lemma arity_mismatch_witness :
  ValidateInputAndOutputSig convertible_core
    (FuncOf [int] [bool_] false) (FuncOf [int; int] [bool_] false)
  = Return (Some (errArgCount 2 1)) /\
  ValidateInputAndOutputSig convertible_core
    (FuncOf [int] [bool_] false) (FuncOf [int] [bool_; error_] false)
  = Return (Some (errReturnCount 2 1)).
Proof.
  split.
  - apply (proj1 (arity_mismatch convertible_core
                    (FuncOf [int] [bool_] false) (FuncOf [int; int] [bool_] false)
                    [int] [bool_] [int; int] [bool_] false false
                    eq_refl eq_refl)).
    simpl. lia.
  - apply (proj2 (arity_mismatch convertible_core
                    (FuncOf [int] [bool_] false)
                    (FuncOf [int] [bool_; error_] false)
                    [int] [bool_] [int] [bool_; error_] false false
                    eq_refl eq_refl)
             [InputArity; InputArg 0; ReturnArity; ReturnArg 0; ReturnArg 1]
             eq_refl).
    + intros c [<-|[<-|[<-|[<-|[<-|[]]]]]] Hc;
        try discriminate Hc; reflexivity.
    + simpl. lia.
Defined.

(** The texts of an input-argument failure and of a return-value failure
    differ from their first character on. *)
Lemma input_return_distinct (i j : Z) (e e' : error) :
  Error (errInputArgument i e) <> Error (errReturnArgument j e').
Proof. simpl. discriminate. Qed.

(** C8.  With the checks of [traversal callFunc] in their order (the
    number of arguments; the variadic argument when the declared
    signature is variadic; the other arguments by increasing index; the
    number of return values; the return values by increasing index),
    validation returns the error of the first check that fails, whatever
    the later checks would report; it returns no error exactly when every
    check passes; an error it returns is the error of one check, all
    checks before it having passed; and the failure of an input argument
    reads differently from the failure of a return value. *)
Theorem first_failure_returned (conv : type -> type -> bool)
    (doFunc callFunc : type) (cs : list check) :
  traversal callFunc = Return cs ->
  (forall ins outs v,
     signature callFunc = Some (ins, outs, v) ->
     cs = ([InputArity]
           ++ (if v then [VariadicArg] else [])
           ++ map InputArg (range (if v then Z.of_nat (List.length ins) - 1
                                   else Z.of_nat (List.length ins)))
           ++ [ReturnArity]
           ++ map ReturnArg (range (Z.of_nat (List.length outs))))%list) /\
  (forall pre c post err,
     cs = (pre ++ c :: post)%list ->
     (forall c', List.In c' pre -> runCheck conv doFunc callFunc c' = Return None) ->
     runCheck conv doFunc callFunc c = Return (Some err) ->
     ValidateInputAndOutputSig conv doFunc callFunc = Return (Some err)) /\
  (ValidateInputAndOutputSig conv doFunc callFunc = Return None <->
   forall c, List.In c cs -> runCheck conv doFunc callFunc c = Return None) /\
  (forall err,
     ValidateInputAndOutputSig conv doFunc callFunc = Return (Some err) ->
     exists pre c post,
       cs = (pre ++ c :: post)%list /\
       (forall c', List.In c' pre -> runCheck conv doFunc callFunc c' = Return None) /\
       runCheck conv doFunc callFunc c = Return (Some err)) /\
  (forall i j e e',
     Error (errInputArgument i e) <> Error (errReturnArgument j e')).
Proof.
  intro Hcs.
  rewrite (ValidateInputAndOutputSig_firstFailure conv _ _ _ Hcs).
  split; [|split; [|split; [|split]]].
  - intros ins outs v Hsig.
    rewrite (traversal_signature _ _ _ _ Hsig) in Hcs. now injection Hcs as <-.
  - intros pre c post err -> Hpre Hc. now apply firstFailure_fail.
  - split; [apply firstFailure_None | apply firstFailure_pass].
  - apply firstFailure_Some.
  - apply input_return_distinct.
Qed.

(** Declared [func(int, int) (bool, error)], substitute
    [func(int, string) bool]: the second argument is reported, not the
    number of return values, which differs too. *)
Lemma first_failure_returned_witness :
  ValidateInputAndOutputSig convertible_core
    (FuncOf [int; string_] [bool_] false)
    (FuncOf [int; int] [bool_; error_] false)
  = Return (Some (errInputArgument 1 (errKind Int String))) /\
  runCheck convertible_core
    (FuncOf [int; string_] [bool_] false)
    (FuncOf [int; int] [bool_; error_] false) ReturnArity
  = Return (Some (errReturnCount 2 1)).
Proof.
  split; [|reflexivity].
  apply (proj1 (proj2 (first_failure_returned convertible_core
                         (FuncOf [int; string_] [bool_] false)
                         (FuncOf [int; int] [bool_; error_] false)
                         [InputArity; InputArg 0; InputArg 1;
                          ReturnArity; ReturnArg 0; ReturnArg 1]
                         eq_refl))
           [InputArity; InputArg 0] (InputArg 1)
           [ReturnArity; ReturnArg 0; ReturnArg 1]).
  - reflexivity.
  - intros c' [<-|[<-|[]]]; reflexivity.
  - reflexivity.
Defined.

(** * Further properties of the argument matcher *)

Lemma validateArg_accepts (conv : type -> type -> bool) (doArg callArg : type) :
  validateArg conv doArg callArg = Return None <-> accepts conv doArg callArg.
Proof.
  unfold accepts.
  destruct (Kind_of callArg) eqn:Hc;
    try (apply validateArg_identity; rewrite Hc; discriminate).
  - rewrite validateArg_Interface by exact Hc. split.
    + intros [= H]. now apply validateInterfaceArg_None.
    + intro H. f_equal. now apply validateInterfaceArg_None.
  - destruct (Kind_eqb (Kind_of doArg) Map) eqn:Hd.
    + apply Kind_eqb_eq in Hd. rewrite validateArg_Map by assumption.
      destruct (Kind_Map_Key _ Hc) as [ck Hck], (Kind_Map_Key _ Hd) as [dk Hdk].
      destruct (Kind_Map_Elem _ Hc) as [ce Hce], (Kind_Map_Elem _ Hd) as [de Hde].
      rewrite (validateMapArg_eq conv _ _ _ _ _ _ Hck Hdk Hce Hde). split.
      * intro H. split; [exact Hd|]. exists ck, dk, ce, de.
        destruct (slot_ok_dec conv dk ck); [|discriminate H].
        destruct (slot_ok_dec conv de ce); [|discriminate H]. tauto.
      * intros (_ & ck' & dk' & ce' & de' & Hck' & Hdk' & Hce' & Hde' & Hk & He).
        rewrite Hck in Hck'. rewrite Hdk in Hdk'.
        rewrite Hce in Hce'. rewrite Hde in Hde'.
        injection Hck' as <-. injection Hdk' as <-.
        injection Hce' as <-. injection Hde' as <-.
        destruct (slot_ok_dec conv dk ck); [|contradiction].
        destruct (slot_ok_dec conv de ce); [reflexivity|contradiction].
    + assert (Hne : Kind_of doArg <> Map).
      { intro H. rewrite H in Hd. discriminate Hd. }
      rewrite validateArg_Kind by (rewrite Hc; congruence).
      split; [discriminate | intros [H _]; contradiction].
Qed.

(** * Acceptance of two function types, position by position *)

Lemma Forall2_nth_error_iff {A B : Type} (P : A -> B -> Prop)
    (l : list A) (l' : list B) :
  Forall2 P l l' <->
  List.length l = List.length l' /\
  forall n a b, nth_error l n = Some a -> nth_error l' n = Some b -> P a b.
Proof.
  revert l'. induction l as [|x l IH]; intros [|y l']; split.
  - intros _. split; [reflexivity|]. intros [|n] a b H; discriminate H.
  - constructor.
  - intro H. inversion H.
  - intros [H _]. discriminate H.
  - intro H. inversion H.
  - intros [H _]. discriminate H.
  - intro H. inversion H as [|? ? ? ? Hxy Hll']; subst.
    apply IH in Hll' as [Hlen Hnth]. split; [simpl; now rewrite Hlen|].
    intros [|n] a b Ha Hb; simpl in Ha, Hb.
    + injection Ha as <-. injection Hb as <-. exact Hxy.
    + eapply Hnth; eassumption.
  - intros [Hlen Hnth]. constructor.
    + now apply (Hnth 0%nat).
    + apply IH. split; [now injection Hlen|].
      intros n a b Ha Hb. now apply (Hnth (S n)).
Qed.

Lemma index_nat {A : Type} (l : list A) (n : nat) (a : A) :
  nth_error l n = Some a -> index l (Z.of_nat n) = Return a.
Proof. intro H. apply index_Return. rewrite Nat2Z.id. split; [lia | exact H]. Qed.

Lemma index_app1 {A : Type} (l l' : list A) (i : Z) :
  0 <= i < Z.of_nat (List.length l) -> index (l ++ l')%list i = index l i.
Proof.
  intro Hi. unfold index. destruct (Z.ltb_spec i 0); [lia|].
  rewrite nth_error_app1 by lia. reflexivity.
Qed.

(** A loop over the first positions of two lists of the same length
    passes exactly when the matcher accepts them pairwise. *)
Lemma positions_Forall2 (conv : type -> type -> bool) (ds cs : list type) :
  List.length ds = List.length cs ->
  (forall i, 0 <= i < Z.of_nat (List.length cs) ->
             (c <- index cs i ;; d <- index ds i ;; validateArg conv d c)
             = Return None) <->
  Forall2 (accepts conv) ds cs.
Proof.
  intro Hlen. rewrite Forall2_nth_error_iff. split.
  - intro H. split; [exact Hlen|]. intros n d c Hd Hc.
    assert (Hn : (n < List.length cs)%nat) by (apply nth_error_Some; congruence).
    specialize (H (Z.of_nat n) ltac:(lia)).
    rewrite (index_nat _ _ _ Hc), (index_nat _ _ _ Hd) in H. simpl in H.
    now apply validateArg_accepts.
  - intros [_ H] i Hi.
    destruct (index_in_range cs i Hi) as [c Hc].
    destruct (index_in_range ds i) as [d Hd]; [lia|].
    rewrite Hc, Hd. simpl. apply validateArg_accepts.
    apply index_Return in Hc as [_ Hc]. apply index_Return in Hd as [_ Hd].
    exact (H _ _ _ Hd Hc).
Qed.

Lemma validateVariadicArg_accepts (conv : type -> type -> bool)
    (lastIdx : Z) (doFunc callFunc subType declaredElem : type) :
  In doFunc (lastIdx - 1) = Return subType ->
  In callFunc (lastIdx - 1) = Return (SliceOf declaredElem) ->
  exists ok,
    validateVariadicArg conv lastIdx doFunc callFunc = Return ok /\
    (ok = true <-> variadic_accepts conv subType declaredElem).
Proof.
  intros Hd Hc.
  rewrite (validateVariadicArg_eq conv _ _ _ _ _ declaredElem Hd Hc eq_refl).
  unfold variadic_accepts.
  destruct (type_eqb subType (SliceOf declaredElem)) eqn:Heq.
  { apply type_eqb_eq in Heq. exists true. tauto. }
  apply type_eqb_neq in Heq.
  destruct (Kind_eqb (Kind_of subType) Slice) eqn:Hs; simpl.
  2:{ exists false. split; [reflexivity|].
      split; [discriminate|]. intros [H|(H & _)]; [contradiction|].
      rewrite H in Hs. discriminate Hs. }
  apply Kind_eqb_eq in Hs.
  destruct (Kind_eqb (Kind_of declaredElem) Interface) eqn:Hi; simpl.
  2:{ exists false. split; [reflexivity|].
      split; [discriminate|]. intros [H|(_ & H & _)]; [contradiction|].
      rewrite H in Hi. discriminate Hi. }
  apply Kind_eqb_eq in Hi.
  destruct (Kind_Slice_Elem _ Hs) as [subElem He]. rewrite He. simpl.
  exists (conv subElem declaredElem). split; [reflexivity|]. split.
  - intro H. right. repeat split; try assumption. now exists subElem.
  - intros [H|(_ & _ & subElem' & He' & H)]; [contradiction|].
    now injection He' as ->.
Qed.

Section Acceptance.

Variable conv : type -> type -> bool.
Variables doFunc callFunc : type.
Variables (dins douts cins couts : list type) (dv cv : bool).
Hypothesis Hdo : signature doFunc = Some (dins, douts, dv).
Hypothesis Hcall : signature callFunc = Some (cins, couts, cv).

Lemma InputArity_passes :
  runCheck conv doFunc callFunc InputArity = Return None <->
  List.length dins = List.length cins.
Proof using Hdo Hcall.
  simpl. rewrite (signature_NumIn _ _ _ _ Hdo), (signature_NumIn _ _ _ _ Hcall).
  simpl.
  destruct (Z.eqb_spec (Z.of_nat (List.length dins)) (Z.of_nat (List.length cins)));
    simpl; split; intro H; try reflexivity; try discriminate H; lia.
Qed.

Lemma ReturnArity_passes :
  runCheck conv doFunc callFunc ReturnArity = Return None <->
  List.length douts = List.length couts.
Proof using Hdo Hcall.
  simpl. rewrite (signature_NumOut _ _ _ _ Hdo), (signature_NumOut _ _ _ _ Hcall).
  simpl.
  destruct (Z.eqb_spec (Z.of_nat (List.length douts)) (Z.of_nat (List.length couts)));
    simpl; split; intro H; try reflexivity; try discriminate H; lia.
Qed.

Lemma ReturnArgs_pass :
  List.length douts = List.length couts ->
  (forall i, 0 <= i < Z.of_nat (List.length couts) ->
             runCheck conv doFunc callFunc (ReturnArg i) = Return None) <->
  Forall2 (accepts conv) douts couts.
Proof using Hdo Hcall.
  intro Hlen. rewrite <- (positions_Forall2 conv _ _ Hlen).
  split; intros H i Hi; specialize (H i Hi); simpl in *;
    rewrite onError_None in *; unfold outputCheck in *;
    now rewrite (signature_Out _ _ _ _ Hcall), (signature_Out _ _ _ _ Hdo) in *.
Qed.

Lemma InputArgs_pass (dinit cinit dtail ctail : list type) :
  dins = (dinit ++ dtail)%list -> cins = (cinit ++ ctail)%list ->
  List.length dinit = List.length cinit ->
  (forall i, 0 <= i < Z.of_nat (List.length cinit) ->
             runCheck conv doFunc callFunc (InputArg i) = Return None) <->
  Forall2 (accepts conv) dinit cinit.
Proof using Hdo Hcall.
  intros Hd Hc Hlen. rewrite <- (positions_Forall2 conv _ _ Hlen).
  split; intros H i Hi; specialize (H i Hi); simpl in *;
    rewrite onError_None in *; unfold inputCheck in *;
    rewrite (signature_In _ _ _ _ Hcall), (signature_In _ _ _ _ Hdo), Hd, Hc in *;
    rewrite !index_app1 in * by lia; exact H.
Qed.

Lemma VariadicArg_passes (dinit cinit : list type) (dlast declaredElem : type) :
  dins = (dinit ++ [dlast])%list -> cins = (cinit ++ [SliceOf declaredElem])%list ->
  List.length dinit = List.length cinit ->
  runCheck conv doFunc callFunc VariadicArg = Return None <->
  variadic_accepts conv dlast declaredElem.
Proof using Hdo Hcall.
  intros Hd Hc Hlen. simpl. rewrite (signature_NumIn _ _ _ _ Hcall). simpl.
  assert (HIc : In callFunc (Z.of_nat (List.length cins) - 1)
                = Return (SliceOf declaredElem)).
  { rewrite (signature_In _ _ _ _ Hcall), Hc. apply index_last. }
  assert (HId : In doFunc (Z.of_nat (List.length cins) - 1) = Return dlast).
  { rewrite (signature_In _ _ _ _ Hdo), Hd, Hc.
    replace (List.length (cinit ++ [SliceOf declaredElem])%list)
      with (List.length (dinit ++ [dlast])%list)
      by (rewrite !length_app; simpl; lia).
    apply index_last. }
  destruct (validateVariadicArg_accepts conv _ _ _ _ _ HId HIc) as (ok & -> & Hok).
  simpl. rewrite <- Hok. destruct ok; simpl.
  - tauto.
  - rewrite HIc, HId. simpl. split; discriminate.
Qed.

Lemma ValidateInputAndOutputSig_accepts :
  variadic_ok cins cv ->
  ValidateInputAndOutputSig conv doFunc callFunc = Return None <->
  inputs_accepted conv cv dins cins /\ Forall2 (accepts conv) douts couts.
Proof using Hdo Hcall.
  intro Hv.
  rewrite (ValidateInputAndOutputSig_firstFailure conv _ _ _
             (traversal_signature _ _ _ _ Hcall)).
  pose proof VariadicArg_passes as HVA.
  pose proof InputArgs_pass as HIA.
  pose proof ReturnArgs_pass as HRA.
  pose proof InputArity_passes as HIn.
  pose proof ReturnArity_passes as HRn.
  split.
  - intro H.
    pose proof (firstFailure_None _ _ H) as Hall. clear H.
    assert (Hin : List.length dins = List.length cins).
    { apply HIn, Hall. now left. }
    assert (Hout : List.length douts = List.length couts).
    { apply HRn, Hall. simpl. right.
      apply in_or_app. right. apply in_or_app. right. now left. }
    split.
    + unfold inputs_accepted. destruct cv.
      * destruct (Hv eq_refl) as (cinit & e & Hc).
        assert (Hne : dins <> []).
        { intro Hnil. rewrite Hnil, Hc, length_app in Hin. simpl in Hin. lia. }
        destruct (exists_last Hne) as (dinit & dlast & Hd).
        assert (Hlen : List.length dinit = List.length cinit).
        { rewrite Hd, Hc, !length_app in Hin. simpl in Hin. lia. }
        exists dinit, dlast, cinit, e. repeat split; try assumption.
        -- apply (HVA _ _ _ _ Hd Hc Hlen), Hall.
           simpl. right. now left.
        -- apply (HIA _ _ _ _ Hd Hc Hlen). intros i Hi. apply Hall.
           simpl. right. right. apply in_or_app. left. apply in_map, in_range.
           rewrite Hc, length_app. simpl. lia.
      * apply (HIA dins cins [] []);
          [now rewrite app_nil_r | now rewrite app_nil_r | exact Hin |].
        intros i Hi. apply Hall. simpl. right. apply in_or_app. left.
        apply in_map, in_range. exact Hi.
    + apply (HRA Hout). intros i Hi. apply Hall. simpl. right.
      apply in_or_app. right. apply in_or_app. right. right.
      apply in_map, in_range. exact Hi.
  - intros [Hins Houts]. apply firstFailure_pass.
    pose proof (Forall2_length Houts) as Hout.
    assert (Hin : List.length dins = List.length cins).
    { unfold inputs_accepted in Hins. destruct cv.
      - destruct Hins as (dinit & dlast & cinit & e & -> & -> & _ & HF).
        rewrite !length_app, (Forall2_length HF). reflexivity.
      - exact (Forall2_length Hins). }
    intros c Hc. simpl in Hc. destruct Hc as [<-|Hc]; [now apply HIn|].
    apply in_app_or in Hc as [Hc|Hc].
    { destruct cv; simpl in Hc; [|contradiction]. destruct Hc as [<-|[]].
      destruct Hins as (dinit & dlast & cinit & e & Hd & Hc & Hva & HF).
      now apply (HVA _ _ _ _ Hd Hc (Forall2_length HF)). }
    apply in_app_or in Hc as [Hc|Hc].
    { apply in_map_iff in Hc as (i & <- & Hi). apply in_range in Hi.
      unfold inputs_accepted in Hins. destruct cv.
      - destruct Hins as (dinit & dlast & cinit & e & Hd & Hc & _ & HF).
        apply (HIA _ _ _ _ Hd Hc (Forall2_length HF)); [exact HF|].
        rewrite Hc, length_app in Hi. simpl in Hi. lia.
      - apply (HIA dins cins [] []);
          try (now rewrite app_nil_r); assumption. }
    destruct Hc as [<-|Hc]; [now apply HRn|].
    apply in_map_iff in Hc as (i & <- & Hi). apply in_range in Hi.
    now apply (HRA Hout).
Qed.

End Acceptance.

(** X4.  The argument matcher returns no error exactly in these cases: the
    declared type is of Interface kind and the substitute's type converts
    to it; both are of Map kind and their keys and their elements are
    accepted slot by slot; the declared type is of any other kind and the
    two types are identical.  In particular a type of another kind is
    never accepted where a map is declared. *)
Theorem argument_matcher_rule (conv : type -> type -> bool) (doArg callArg : type) :
  validateArg conv doArg callArg = Return None <-> accepts conv doArg callArg.
Proof. apply validateArg_accepts. Qed.

(** * What validation depends on *)

Lemma Kind_Func_signature (t : type) :
  Kind_of t = Func <-> exists ins outs v, signature t = Some (ins, outs, v).
Proof.
  induction t as [b | n u IHu | | | | | | | | ]; simpl;
    try (split; [discriminate | now intros (? & ? & ? & [=])]).
  - split; [destruct b; discriminate | now intros (? & ? & ? & [=])].
  - exact IHu.
  - split; [eauto | reflexivity].
Qed.

Lemma NumIn_Return_Kind (t : type) (n : Z) : NumIn t = Return n -> Kind_of t = Func.
Proof.
  induction t as [b | m u IHu | | | | | | | | ]; simpl; intro Hn;
    try discriminate Hn; auto.
Qed.

Section Extensionality.

Variables conv conv' : type -> type -> bool.
Hypothesis Hconv :
  forall d c, Kind_of c = Interface -> conv d c = conv' d c.

Lemma validateInterfaceArg_ext (doArg callArg : type) :
  Kind_of callArg = Interface ->
  validateInterfaceArg conv doArg callArg = validateInterfaceArg conv' doArg callArg.
Proof using Hconv. intro Hk. unfold validateInterfaceArg. now rewrite Hconv. Qed.

Lemma validateMapArg_ext (doArg callArg : type) :
  validateMapArg conv doArg callArg = validateMapArg conv' doArg callArg.
Proof using Hconv.
  unfold validateMapArg.
  destruct (Key callArg) as [callKey|]; simpl; [|reflexivity].
  destruct (Key doArg) as [doKey|]; simpl; [|reflexivity].
  assert (Hkey :
    match Kind_of callKey with
    | Interface =>
        match validateInterfaceArg conv doKey callKey with
        | Some err => Some (Wrap err "map key")
        | None => None
        end
    | _ => if negb (type_eqb doKey callKey) then Some (errMapKey callKey doKey)
           else None
    end =
    match Kind_of callKey with
    | Interface =>
        match validateInterfaceArg conv' doKey callKey with
        | Some err => Some (Wrap err "map key")
        | None => None
        end
    | _ => if negb (type_eqb doKey callKey) then Some (errMapKey callKey doKey)
           else None
    end).
  { destruct (Kind_of callKey) eqn:Hk; try reflexivity.
    now rewrite (validateInterfaceArg_ext _ _ Hk). }
  rewrite Hkey.
  match goal with |- match ?k with Some _ => _ | None => _ end = _ =>
    destruct k end; [reflexivity|].
  destruct (Elem callArg) as [callElem|]; simpl; [|reflexivity].
  destruct (Elem doArg) as [doElem|]; simpl; [|reflexivity].
  destruct (Kind_of callElem) eqn:Hk; try reflexivity.
  now rewrite (validateInterfaceArg_ext _ _ Hk).
Qed.

Lemma validateArg_ext (doArg callArg : type) :
  validateArg conv doArg callArg = validateArg conv' doArg callArg.
Proof using Hconv.
  unfold validateArg.
  destruct (Kind_of callArg) eqn:Hk; try reflexivity.
  - now rewrite (validateInterfaceArg_ext _ _ Hk).
  - now rewrite validateMapArg_ext.
Qed.

Lemma validateVariadicArg_ext (lastIdx : Z) (doFunc callFunc : type) :
  validateVariadicArg conv lastIdx doFunc callFunc
  = validateVariadicArg conv' lastIdx doFunc callFunc.
Proof using Hconv.
  unfold validateVariadicArg.
  destruct (In doFunc (lastIdx - 1)) as [d|]; simpl; [|reflexivity].
  destruct (In callFunc (lastIdx - 1)) as [c|]; simpl; [|reflexivity].
  destruct (negb (type_eqb d c)); [|reflexivity].
  destruct (negb (Kind_eqb (Kind_of d) Slice)); [reflexivity|].
  destruct (Elem c) as [callElem|]; simpl; [|reflexivity].
  destruct (Kind_eqb (Kind_of callElem) Interface) eqn:Hk; simpl; [|reflexivity].
  apply Kind_eqb_eq in Hk.
  destruct (Elem d) as [doElem|]; simpl; [|reflexivity].
  now rewrite (Hconv _ _ Hk).
Qed.

Lemma runCheck_ext (doFunc callFunc : type) (c : check) :
  runCheck conv doFunc callFunc c = runCheck conv' doFunc callFunc c.
Proof using Hconv.
  destruct c as [| |i| |i]; simpl; try reflexivity.
  - destruct (NumIn callFunc) as [lastIdx|]; simpl; [|reflexivity].
    now rewrite validateVariadicArg_ext.
  - unfold inputCheck.
    destruct (In callFunc i); simpl; [|reflexivity].
    destruct (In doFunc i); simpl; [|reflexivity].
    now rewrite validateArg_ext.
  - unfold outputCheck.
    destruct (Out callFunc i); simpl; [|reflexivity].
    destruct (Out doFunc i); simpl; [|reflexivity].
    now rewrite validateArg_ext.
Qed.

End Extensionality.

Lemma firstFailure_ext {A : Type} (run run' : A -> result (option error))
    (cs : list A) :
  (forall c, run c = run' c) -> firstFailure run cs = firstFailure run' cs.
Proof.
  intro H. induction cs as [|c cs IH]; simpl; [reflexivity|].
  rewrite H. destruct (run' c) as [[err|]|]; simpl; auto.
Qed.

(** When the declared type is no function type, validation panics in
    the same way whatever the rest is. *)
Lemma ValidateInputAndOutputSig_no_traversal
    (conv : type -> type -> bool) (doFunc callFunc : type) (msg : string) :
  traversal callFunc = Panic msg ->
  ValidateInputAndOutputSig conv doFunc callFunc
  = (doIn <- NumIn doFunc ;; Panic msg).
Proof.
  unfold traversal, ValidateInputAndOutputSig. intro H.
  destruct (NumIn doFunc) as [doIn|]; simpl; [|reflexivity].
  destruct (NumIn callFunc) as [callIn|] eqn:Hn; simpl in *.
  - apply NumIn_Return_Kind, Kind_Func_signature in Hn as (ins & outs & v & Hs).
    rewrite (signature_IsVariadic _ _ _ _ Hs), (signature_NumOut _ _ _ _ Hs) in H.
    discriminate H.
  - now injection H as ->.
Qed.

(** X3.  Validation asks [ConvertibleTo] only about targets of Interface
    kind: two convertibility relations that agree on every pair whose
    second type is of Interface kind give the same result, error text
    included, on every pair of types. *)
Theorem conversion_only_to_interfaces (conv conv' : type -> type -> bool)
    (doFunc callFunc : type) :
  (forall d c, Kind_of c = Interface -> conv d c = conv' d c) ->
  ValidateInputAndOutputSig conv doFunc callFunc
  = ValidateInputAndOutputSig conv' doFunc callFunc.
Proof.
  intro Hconv. destruct (traversal callFunc) as [cs|msg] eqn:Ht.
  - rewrite !(ValidateInputAndOutputSig_firstFailure _ _ _ _ Ht).
    apply firstFailure_ext. intro c. now apply runCheck_ext.
  - now rewrite !(ValidateInputAndOutputSig_no_traversal _ _ _ _ Ht).
Qed.

(** Conversion between numeric types is never used: with or without it,
    [func(int64) bool] is rejected where [func(int) bool] is declared. *)
Lemma conversion_only_to_interfaces_witness :
  ValidateInputAndOutputSig
    (fun d c => convertible_core d c
                || (type_eqb d (Basic Tint64) && type_eqb c int))
    (FuncOf [Basic Tint64] [bool_] false) (FuncOf [int] [bool_] false)
  = ValidateInputAndOutputSig convertible_core
      (FuncOf [Basic Tint64] [bool_] false) (FuncOf [int] [bool_] false).
Proof.
  apply conversion_only_to_interfaces.
  intros d c Hk. destruct (type_eqb c int) eqn:Hc.
  - apply type_eqb_eq in Hc. subst c. discriminate Hk.
  - now rewrite andb_false_r, orb_false_r.
Defined.

(** X1.  Validation returns (an error or none) exactly when both types
    are of kind Func, and panics inside [reflect] otherwise; a declared
    type of kind Func is a Go function type, whose final parameter is a
    slice when it is variadic. *)
Theorem returns_iff_functions (conv : type -> type -> bool)
    (doFunc callFunc : type) :
  (Kind_of callFunc = Func -> func_type callFunc) ->
  (exists r, ValidateInputAndOutputSig conv doFunc callFunc = Return r) <->
  Kind_of doFunc = Func /\ Kind_of callFunc = Func.
Proof.
  intro Hwf. split.
  - intros [r Hr]. unfold ValidateInputAndOutputSig in Hr.
    destruct (NumIn doFunc) as [doIn|] eqn:Hd; simpl in Hr; [|discriminate Hr].
    destruct (NumIn callFunc) as [callIn|] eqn:Hc; simpl in Hr; [|discriminate Hr].
    split; eapply NumIn_Return_Kind; eassumption.
  - intros [Hd Hc].
    apply Kind_Func_signature in Hd as (dins & douts & dv & Hd).
    destruct (Hwf Hc) as (cins & couts & cv & Hcall & Hv).
    exact (ValidateInputAndOutputSig_total conv _ _ _ _ _ _ _ _ Hd Hcall Hv).
Qed.

(** The test "argument to Do is not a function": a [string] for the
    function makes validation panic. *)
Lemma returns_iff_functions_witness :
  ~ exists r,
      ValidateInputAndOutputSig convertible_core string_
        (FuncOf [int; int] [bool_] false) = Return r.
Proof.
  intro H.
  apply (returns_iff_functions convertible_core string_
           (FuncOf [int; int] [bool_] false)) in H.
  - destruct H as [H _]. discriminate H.
  - intros _. exists [int; int], [bool_], false.
    split; [reflexivity | intro Hv; discriminate Hv].
Defined.

Lemma runCheck_signature (conv : type -> type -> bool)
    (doFunc doFunc' callFunc callFunc' : type)
    (dins douts cins couts : list type) (dv dv' cv : bool) (c : check) :
  signature doFunc = Some (dins, douts, dv) ->
  signature doFunc' = Some (dins, douts, dv') ->
  signature callFunc = Some (cins, couts, cv) ->
  signature callFunc' = Some (cins, couts, cv) ->
  runCheck conv doFunc callFunc c = runCheck conv doFunc' callFunc' c.
Proof.
  intros Hd Hd' Hc Hc'.
  assert (HIn : forall i, In doFunc i = In doFunc' i).
  { intro i. now rewrite (signature_In _ _ _ _ Hd), (signature_In _ _ _ _ Hd'). }
  assert (HInc : forall i, In callFunc i = In callFunc' i).
  { intro i. now rewrite (signature_In _ _ _ _ Hc), (signature_In _ _ _ _ Hc'). }
  assert (HOut : forall i, Out doFunc i = Out doFunc' i).
  { intro i. now rewrite (signature_Out _ _ _ _ Hd), (signature_Out _ _ _ _ Hd'). }
  assert (HOutc : forall i, Out callFunc i = Out callFunc' i).
  { intro i. now rewrite (signature_Out _ _ _ _ Hc), (signature_Out _ _ _ _ Hc'). }
  destruct c as [| |i| |i]; simpl.
  - now rewrite (signature_NumIn _ _ _ _ Hd), (signature_NumIn _ _ _ _ Hd'),
      (signature_NumIn _ _ _ _ Hc), (signature_NumIn _ _ _ _ Hc').
  - rewrite (signature_NumIn _ _ _ _ Hc), (signature_NumIn _ _ _ _ Hc'). simpl.
    unfold validateVariadicArg.
    now rewrite (HIn (Z.of_nat (List.length cins) - 1)),
      (HInc (Z.of_nat (List.length cins) - 1)).
  - unfold inputCheck. now rewrite HIn, HInc.
  - now rewrite (signature_NumOut _ _ _ _ Hd), (signature_NumOut _ _ _ _ Hd'),
      (signature_NumOut _ _ _ _ Hc), (signature_NumOut _ _ _ _ Hc').
  - unfold outputCheck. now rewrite HOut, HOutc.
Qed.

(** X2.  Validation looks at the parameter list and the result list of
    the substitute and never at its variadic flag, and it looks through
    the names of defined function types: two substitutes with the same
    parameters and results, and two declared types with the same
    signature, give the same result.  So a variadic substitute
    [func(...T)] is validated as [func([]T)]. *)
Theorem substitute_variadic_flag_ignored (conv : type -> type -> bool)
    (doFunc doFunc' callFunc callFunc' : type)
    (dins douts cins couts : list type) (dv dv' cv : bool) :
  signature doFunc = Some (dins, douts, dv) ->
  signature doFunc' = Some (dins, douts, dv') ->
  signature callFunc = Some (cins, couts, cv) ->
  signature callFunc' = Some (cins, couts, cv) ->
  ValidateInputAndOutputSig conv doFunc callFunc
  = ValidateInputAndOutputSig conv doFunc' callFunc'.
Proof.
  intros Hd Hd' Hc Hc'.
  rewrite (ValidateInputAndOutputSig_firstFailure conv doFunc callFunc _
             (traversal_signature _ _ _ _ Hc)).
  rewrite (ValidateInputAndOutputSig_firstFailure conv doFunc' callFunc' _
             (traversal_signature _ _ _ _ Hc')).
  apply firstFailure_ext. intro c.
  exact (runCheck_signature conv _ _ _ _ _ _ _ _ _ _ _ c Hd Hd' Hc Hc').
Qed.

(** The variadic [func(string, ...int) bool] and a defined type
    [Handler], declared as [func(string, []int) bool], are validated
    alike against the declared [func(string, ...int) bool]. *)
Lemma substitute_variadic_flag_ignored_witness :
  ValidateInputAndOutputSig convertible_core
    (FuncOf [string_; SliceOf int] [bool_] true)
    (FuncOf [string_; SliceOf int] [bool_] true)
  = ValidateInputAndOutputSig convertible_core
      (Named "Handler" (FuncOf [string_; SliceOf int] [bool_] false))
      (FuncOf [string_; SliceOf int] [bool_] true).
Proof.
  exact (substitute_variadic_flag_ignored convertible_core
           (FuncOf [string_; SliceOf int] [bool_] true)
           (Named "Handler" (FuncOf [string_; SliceOf int] [bool_] false))
           (FuncOf [string_; SliceOf int] [bool_] true)
           (FuncOf [string_; SliceOf int] [bool_] true)
           [string_; SliceOf int] [bool_] [string_; SliceOf int] [bool_]
           true false true eq_refl eq_refl eq_refl eq_refl).
Defined.

(** X5.  Two function types are accepted exactly when the parameter
    lists are accepted and the result lists are accepted pairwise by the
    argument matcher.  For a declared function that is not variadic the
    parameter lists are accepted pairwise; for a variadic one, all
    parameters but the last are accepted pairwise and the last parameter
    of the substitute is accepted for the variadic parameter.  In
    particular the lists have the same lengths. *)
Theorem acceptance_rule (conv : type -> type -> bool) (doFunc callFunc : type)
    (dins douts cins couts : list type) (dv cv : bool) :
  signature doFunc = Some (dins, douts, dv) ->
  signature callFunc = Some (cins, couts, cv) ->
  variadic_ok cins cv ->
  (ValidateInputAndOutputSig conv doFunc callFunc = Return None <->
   inputs_accepted conv cv dins cins /\ Forall2 (accepts conv) douts couts) /\
  (ValidateInputAndOutputSig conv doFunc callFunc = Return None ->
   List.length dins = List.length cins /\ List.length douts = List.length couts).
Proof.
  intros Hd Hc Hv.
  pose proof (ValidateInputAndOutputSig_accepts conv _ _ _ _ _ _ _ _ Hd Hc Hv) as H.
  split; [exact H|].
  intro Hr. apply H in Hr as [Hins Houts]. split; [|exact (Forall2_length Houts)].
  unfold inputs_accepted in Hins. destruct cv.
  - destruct Hins as (dinit & dlast & cinit & e & -> & -> & _ & HF).
    now rewrite !length_app, (Forall2_length HF).
  - exact (Forall2_length Hins).
Qed.

(** Declared [func(string, map[interface{}]int, ...interface{}) error],
    substitute [func(string, map[int]int, []string) error]. *)
Lemma acceptance_rule_witness :
  ValidateInputAndOutputSig convertible_core
    (FuncOf [string_; MapOf int int; SliceOf string_] [error_] false)
    (FuncOf [string_; MapOf emptyInterface int; SliceOf emptyInterface]
            [error_] true)
  = Return None.
Proof.
  apply (proj1 (acceptance_rule convertible_core
           (FuncOf [string_; MapOf int int; SliceOf string_] [error_] false)
           (FuncOf [string_; MapOf emptyInterface int; SliceOf emptyInterface]
                   [error_] true)
           [string_; MapOf int int; SliceOf string_] [error_]
           [string_; MapOf emptyInterface int; SliceOf emptyInterface] [error_]
           false true eq_refl eq_refl
           (fun _ => ex_intro _ [string_; MapOf emptyInterface int]
                       (ex_intro _ emptyInterface eq_refl)))).
  split.
  - exists [string_; MapOf int int], (SliceOf string_),
      [string_; MapOf emptyInterface int], emptyInterface.
    repeat split.
    + right. repeat split. now exists string_.
    + repeat constructor.
      exists emptyInterface, int, int, int. repeat split.
  - repeat constructor.
Defined.

(** * Consequences of the acceptance rule *)

Lemma accepts_strict (conv : type -> type -> bool) (doArg callArg : type) :
  strict callArg -> (accepts conv doArg callArg <-> doArg = callArg).
Proof.
  intros [Hi Hm]. unfold accepts.
  destruct (Kind_of callArg); try reflexivity; contradiction.
Qed.

Lemma Forall2_accepts_strict (conv : type -> type -> bool) (ds cs : list type) :
  Forall strict cs -> (Forall2 (accepts conv) ds cs <-> ds = cs).
Proof.
  intro Hs. revert ds. induction Hs as [|c cs Hc _ IH]; intros ds; split.
  - intro H. now inversion H.
  - intros ->. constructor.
  - intro H. inversion H as [|d ? ds' ? Hdc Hrest]; subst.
    apply (accepts_strict conv _ _ Hc) in Hdc. apply IH in Hrest. now subst.
  - intros ->. constructor; [now apply accepts_strict | now apply IH].
Qed.

(** X6.  Where the declared function is not variadic and none of its
    parameter and result types is of Interface or Map kind, a substitute
    is accepted only with the very same parameter list and the very same
    result list. *)
Theorem strict_signature_exact_match (conv : type -> type -> bool)
    (doFunc callFunc : type) (dins douts cins couts : list type) (dv : bool) :
  signature doFunc = Some (dins, douts, dv) ->
  signature callFunc = Some (cins, couts, false) ->
  Forall strict cins -> Forall strict couts ->
  (ValidateInputAndOutputSig conv doFunc callFunc = Return None <->
   dins = cins /\ douts = couts).
Proof.
  intros Hd Hc Hins Houts.
  rewrite (ValidateInputAndOutputSig_accepts conv _ _ _ _ _ _ _ _ Hd Hc)
    by (intro H; discriminate H).
  unfold inputs_accepted.
  now rewrite (Forall2_accepts_strict conv _ _ Hins),
    (Forall2_accepts_strict conv _ _ Houts).
Qed.

(** Declared [func(int, []string) bool]: with everything convertible to
    everything, [func(int64, []string) bool] is still not accepted. *)
Lemma strict_signature_exact_match_witness :
  ValidateInputAndOutputSig (fun _ _ => true)
    (FuncOf [Basic Tint64; SliceOf string_] [bool_] false)
    (FuncOf [int; SliceOf string_] [bool_] false)
  <> Return None.
Proof.
  intro H.
  apply (strict_signature_exact_match (fun _ _ => true)
           (FuncOf [Basic Tint64; SliceOf string_] [bool_] false)
           (FuncOf [int; SliceOf string_] [bool_] false)
           [Basic Tint64; SliceOf string_] [bool_]
           [int; SliceOf string_] [bool_] false eq_refl eq_refl) in H.
  - destruct H as [H _]. discriminate H.
  - repeat constructor; discriminate.
  - repeat constructor; discriminate.
Defined.

Section Monotone.

Variables conv conv' : type -> type -> bool.
Hypothesis Hmono : forall d c, conv d c = true -> conv' d c = true.

Lemma slot_ok_mono (doT callT : type) :
  slot_ok conv doT callT -> slot_ok conv' doT callT.
Proof using Hmono. unfold slot_ok. destruct (Kind_of callT); auto. Qed.

Lemma accepts_mono (doArg callArg : type) :
  accepts conv doArg callArg -> accepts conv' doArg callArg.
Proof using Hmono.
  unfold accepts. destruct (Kind_of callArg); auto.
  intros (Hk & ck & dk & ce & de & Hck & Hdk & Hce & Hde & Hkey & Helem).
  split; [exact Hk|]. exists ck, dk, ce, de.
  repeat split; try assumption; now apply slot_ok_mono.
Qed.

Lemma inputs_accepted_mono (variadic : bool) (dins cins : list type) :
  inputs_accepted conv variadic dins cins ->
  inputs_accepted conv' variadic dins cins.
Proof using Hmono.
  unfold inputs_accepted. destruct variadic.
  - intros (dinit & dlast & cinit & e & Hd & Hc & Hva & HF).
    exists dinit, dlast, cinit, e. repeat split; try assumption.
    + destruct Hva as [Hva|(Hs & Hi & subElem & He & Hcv)]; [now left|].
      right. repeat split; try assumption. exists subElem. auto.
    + eapply Forall2_impl; [|exact HF]. apply accepts_mono.
  - apply Forall2_impl, accepts_mono.
Qed.

End Monotone.

(** X7.  Acceptance grows with convertibility: what is accepted under
    one convertibility relation is accepted under every relation that
    admits at least the same conversions. *)
Theorem acceptance_monotone (conv conv' : type -> type -> bool)
    (doFunc callFunc : type)
    (dins douts cins couts : list type) (dv cv : bool) :
  (forall d c, conv d c = true -> conv' d c = true) ->
  signature doFunc = Some (dins, douts, dv) ->
  signature callFunc = Some (cins, couts, cv) ->
  variadic_ok cins cv ->
  ValidateInputAndOutputSig conv doFunc callFunc = Return None ->
  ValidateInputAndOutputSig conv' doFunc callFunc = Return None.
Proof.
  intros Hmono Hd Hc Hv Hr.
  apply (ValidateInputAndOutputSig_accepts conv _ _ _ _ _ _ _ _ Hd Hc Hv) in Hr
    as [Hins Houts].
  apply (ValidateInputAndOutputSig_accepts conv' _ _ _ _ _ _ _ _ Hd Hc Hv).
  split.
  - now apply (inputs_accepted_mono conv conv' Hmono).
  - eapply Forall2_impl; [|exact Houts]. now apply accepts_mono.
Qed.

Lemma acceptance_monotone_witness :
  ValidateInputAndOutputSig (fun _ _ => true)
    (FuncOf [int] [bool_] false) (FuncOf [emptyInterface] [bool_] false)
  = Return None.
Proof.
  apply (acceptance_monotone convertible_core (fun _ _ => true)
           (FuncOf [int] [bool_] false) (FuncOf [emptyInterface] [bool_] false)
           [int] [bool_] [emptyInterface] [bool_] false false).
  - reflexivity.
  - reflexivity.
  - reflexivity.
  - intro H. discriminate H.
  - reflexivity.
Defined.

(** X10.  Between two types of Map kind the argument matcher compares
    the key types and the element types and nothing else: maps with the
    same key and element types are interchangeable on either side, so a
    defined map type is treated as the map type it is defined as. *)
Theorem maps_compared_by_key_and_element (conv : type -> type -> bool)
    (doArg doArg' callArg callArg' : type) :
  Kind_of doArg = Map -> Kind_of doArg' = Map ->
  Kind_of callArg = Map -> Kind_of callArg' = Map ->
  Key doArg = Key doArg' -> Elem doArg = Elem doArg' ->
  Key callArg = Key callArg' -> Elem callArg = Elem callArg' ->
  validateArg conv doArg callArg = validateArg conv doArg' callArg'.
Proof.
  intros Hd Hd' Hc Hc' Hkd Hed Hkc Hec.
  rewrite !validateArg_Map by assumption.
  unfold validateMapArg. now rewrite Hkd, Hed, Hkc, Hec.
Qed.

(** [type Header map[string][]string] where [map[string][]string] is
    declared: accepted, as the map type itself is. *)
Lemma maps_compared_by_key_and_element_witness :
  validateArg convertible_core
    (Named "Header" (MapOf string_ (SliceOf string_)))
    (MapOf string_ (SliceOf string_))
  = validateArg convertible_core
      (MapOf string_ (SliceOf string_)) (MapOf string_ (SliceOf string_)) /\
  validateArg convertible_core
    (Named "Header" (MapOf string_ (SliceOf string_)))
    (MapOf string_ (SliceOf string_)) = Return None.
Proof.
  split; [|reflexivity].
  apply maps_compared_by_key_and_element; reflexivity.
Defined.

(** * The failure that is reported *)

Lemma onError_Some (f : error -> error) (r : result (option error)) (err : error) :
  onError f r = Return (Some err) <-> exists e, r = Return (Some e) /\ err = f e.
Proof.
  unfold onError. destruct r as [[e|]|]; simpl; split.
  - intros [= <-]. eauto.
  - now intros (e' & [= ->] & ->).
  - discriminate.
  - now intros (e' & [=] & _).
  - discriminate.
  - now intros (e' & [=] & _).
Qed.

Lemma firstFailure_seq_Some (run : Z -> result (option error))
    (s len : nat) (err : error) :
  firstFailure run (map Z.of_nat (seq s len)) = Return (Some err) ->
  exists i : nat,
    (s <= i < s + len)%nat /\ run (Z.of_nat i) = Return (Some err) /\
    forall j : nat, (s <= j < i)%nat -> run (Z.of_nat j) = Return None.
Proof.
  revert s. induction len as [|len IH]; intros s; simpl; intro H; [discriminate H|].
  destruct (run (Z.of_nat s)) as [[e|]|] eqn:E; simpl in H; try discriminate H.
  - injection H as ->. exists s. split; [lia|]. split; [exact E|].
    intros j Hj. lia.
  - destruct (IH (S s) H) as (i & Hi & Hrun & Hbefore).
    exists i. split; [lia|]. split; [exact Hrun|].
    intros j Hj. destruct (Nat.eq_dec j s) as [->|Hne]; [exact E|].
    apply Hbefore. lia.
Qed.

Lemma firstFailure_one {A : Type} (run : A -> result (option error)) (c : A) :
  firstFailure run [c] = run c.
Proof. simpl. now destruct (run c) as [[e|]|]. Qed.

(** A loop that reports an error reports the first index that fails. *)
Lemma firstFailure_range_Some (run : Z -> result (option error)) (n : Z) (err : error) :
  firstFailure run (range n) = Return (Some err) ->
  exists i, 0 <= i < n /\ run i = Return (Some err) /\
            forall j, 0 <= j < i -> run j = Return None.
Proof.
  unfold range. intro H.
  destruct (firstFailure_seq_Some run 0 (Z.to_nat n) err H) as (i & Hi & Hrun & Hb).
  exists (Z.of_nat i). split; [lia|]. split; [exact Hrun|].
  intros j Hj. rewrite <- (Z2Nat.id j) by lia. apply Hb. lia.
Qed.

Section Reported.

Variable conv : type -> type -> bool.
Variables doFunc callFunc : type.
Variables (dins douts cins couts : list type) (dv cv : bool).
Hypothesis Hdo : signature doFunc = Some (dins, douts, dv).
Hypothesis Hcall : signature callFunc = Some (cins, couts, cv).

Lemma InputArity_eq :
  runCheck conv doFunc callFunc InputArity =
  Return (if negb (Z.of_nat (List.length dins) =? Z.of_nat (List.length cins))
          then Some (errArgCount (Z.of_nat (List.length cins))
                                 (Z.of_nat (List.length dins)))
          else None).
Proof using Hdo Hcall.
  simpl. now rewrite (signature_NumIn _ _ _ _ Hdo), (signature_NumIn _ _ _ _ Hcall).
Qed.

Lemma ReturnArity_eq :
  runCheck conv doFunc callFunc ReturnArity =
  Return (if negb (Z.of_nat (List.length douts) =? Z.of_nat (List.length couts))
          then Some (errReturnCount (Z.of_nat (List.length couts))
                                    (Z.of_nat (List.length douts)))
          else None).
Proof using Hdo Hcall.
  simpl. now rewrite (signature_NumOut _ _ _ _ Hdo), (signature_NumOut _ _ _ _ Hcall).
Qed.

Lemma VariadicArg_Some (err : error) :
  runCheck conv doFunc callFunc VariadicArg = Return (Some err) ->
  validateVariadicArg conv (Z.of_nat (List.length cins)) doFunc callFunc
    = Return false /\
  exists callArg doArg,
    In callFunc (Z.of_nat (List.length cins) - 1) = Return callArg /\
    In doFunc (Z.of_nat (List.length cins) - 1) = Return doArg /\
    err = errVariadicArg callArg (Z.of_nat (List.length cins) - 1) doArg.
Proof using Hcall.
  simpl. rewrite (signature_NumIn _ _ _ _ Hcall). simpl.
  destruct (validateVariadicArg conv _ doFunc callFunc) as [[|]|]; simpl;
    try discriminate.
  destruct (In callFunc _) as [callArg|]; simpl; try discriminate.
  destruct (In doFunc _) as [doArg|]; simpl; try discriminate.
  intros [= <-]. split; [reflexivity|]. now exists callArg, doArg.
Qed.

End Reported.

(** X8.  The error validation returns is the error of the first check
    that fails, and it tells which: the count of arguments; the variadic
    argument; the input argument of the least index [i] that the matcher
    rejects, every argument before it being accepted; the count of return
    values; or the return value of the least index that the matcher
    rejects. *)
Theorem reported_failure (conv : type -> type -> bool) (doFunc callFunc : type)
    (dins douts cins couts : list type) (dv cv : bool) (err : error) :
  signature doFunc = Some (dins, douts, dv) ->
  signature callFunc = Some (cins, couts, cv) ->
  ValidateInputAndOutputSig conv doFunc callFunc = Return (Some err) ->
  (List.length dins <> List.length cins /\
   err = errArgCount (Z.of_nat (List.length cins)) (Z.of_nat (List.length dins)))
  \/
  (cv = true /\
   validateVariadicArg conv (Z.of_nat (List.length cins)) doFunc callFunc
     = Return false /\
   exists callArg doArg,
     In callFunc (Z.of_nat (List.length cins) - 1) = Return callArg /\
     In doFunc (Z.of_nat (List.length cins) - 1) = Return doArg /\
     err = errVariadicArg callArg (Z.of_nat (List.length cins) - 1) doArg)
  \/
  (exists i e,
     0 <= i < (if cv then Z.of_nat (List.length cins) - 1
               else Z.of_nat (List.length cins)) /\
     inputCheck conv doFunc callFunc i = Return (Some e) /\
     (forall j, 0 <= j < i -> inputCheck conv doFunc callFunc j = Return None) /\
     err = errInputArgument i e)
  \/
  (List.length douts <> List.length couts /\
   err = errReturnCount (Z.of_nat (List.length couts))
                        (Z.of_nat (List.length douts)))
  \/
  (exists i e,
     0 <= i < Z.of_nat (List.length couts) /\
     outputCheck conv doFunc callFunc i = Return (Some e) /\
     (forall j, 0 <= j < i -> outputCheck conv doFunc callFunc j = Return None) /\
     err = errReturnArgument i e).
Proof.
  intros Hd Hc Hr.
  rewrite (ValidateInputAndOutputSig_firstFailure conv _ _ _
             (traversal_signature _ _ _ _ Hc)) in Hr.
  rewrite firstFailure_app, firstFailure_one in Hr.
  rewrite (InputArity_eq conv _ _ _ _ _ _ _ _ Hd Hc) in Hr. cbn [bind negb] in Hr.
  destruct (Z.eqb_spec (Z.of_nat (List.length dins)) (Z.of_nat (List.length cins)))
    as [Hlen|Hlen]; cbn [bind negb] in Hr.
  2:{ left. injection Hr as <-. split; [lia | reflexivity]. }
  right. rewrite firstFailure_app in Hr.
  destruct (firstFailure _ (if cv then [VariadicArg] else [])) as [[e|]|] eqn:Hvar;
    cbn [bind negb] in Hr; try discriminate Hr.
  { left. injection Hr as <-. destruct cv; [|discriminate Hvar].
    split; [reflexivity|]. rewrite firstFailure_one in Hvar.
    exact (VariadicArg_Some conv _ _ _ _ _ Hc _ Hvar). }
  right. rewrite firstFailure_app in Hr.
  destruct (firstFailure _ (map InputArg _)) as [[e|]|] eqn:Hin;
    cbn [bind negb] in Hr; try discriminate Hr.
  { left. injection Hr as <-. rewrite firstFailure_map in Hin.
    apply firstFailure_range_Some in Hin as (i & Hi & Hrun & Hbefore).
    cbn [bind negb] in Hrun. apply onError_Some in Hrun as (e' & Hrun & ->).
    exists i, e'. repeat split; try lia; try assumption.
    intros j Hj. specialize (Hbefore j Hj). simpl in Hbefore.
    now apply onError_None in Hbefore. }
  right. rewrite firstFailure_app, firstFailure_one in Hr.
  rewrite (ReturnArity_eq conv _ _ _ _ _ _ _ _ Hd Hc) in Hr. cbn [bind negb] in Hr.
  destruct (Z.eqb_spec (Z.of_nat (List.length douts)) (Z.of_nat (List.length couts)))
    as [Hout|Hout]; cbn [bind negb] in Hr.
  2:{ left. injection Hr as <-. split; [lia | reflexivity]. }
  right. rewrite firstFailure_map in Hr.
  apply firstFailure_range_Some in Hr as (i & Hi & Hrun & Hbefore).
  cbn [bind negb] in Hrun. apply onError_Some in Hrun as (e' & Hrun & ->).
  exists i, e'. repeat split; try lia; try assumption.
  intros j Hj. specialize (Hbefore j Hj). simpl in Hbefore.
  now apply onError_None in Hbefore.
Qed.

(** Declared [func(int, int, int) bool], substitute
    [func(int, string, bool) bool]: the second argument is reported. *)
Lemma reported_failure_witness :
  let doFunc := FuncOf [int; string_; bool_] [bool_] false in
  let callFunc := FuncOf [int; int; int] [bool_] false in
  let err := errInputArgument 1 (errKind Int String) in
  (3%nat <> 3%nat /\ err = errArgCount 3 3)
  \/
  (false = true /\
   validateVariadicArg convertible_core 3 doFunc callFunc = Return false /\
   exists callArg doArg,
     In callFunc (3 - 1) = Return callArg /\
     In doFunc (3 - 1) = Return doArg /\
     err = errVariadicArg callArg (3 - 1) doArg)
  \/
  (exists i e,
     0 <= i < 3 /\
     inputCheck convertible_core doFunc callFunc i = Return (Some e) /\
     (forall j, 0 <= j < i ->
                inputCheck convertible_core doFunc callFunc j = Return None) /\
     err = errInputArgument i e)
  \/
  (1%nat <> 1%nat /\ err = errReturnCount 1 1)
  \/
  (exists i e,
     0 <= i < 1 /\
     outputCheck convertible_core doFunc callFunc i = Return (Some e) /\
     (forall j, 0 <= j < i ->
                outputCheck convertible_core doFunc callFunc j = Return None) /\
     err = errReturnArgument i e).
Proof.
  exact (reported_failure convertible_core
           (FuncOf [int; string_; bool_] [bool_] false)
           (FuncOf [int; int; int] [bool_] false)
           [int; string_; bool_] [bool_] [int; int; int] [bool_] false false
           (errInputArgument 1 (errKind Int String))
           eq_refl eq_refl eq_refl).
Defined.

(** X9.  An error of the argument matcher is one of five, and each
    tells its cause: the substitute's type does not convert to the
    declared interface; the kinds differ; the kinds agree and the types
    differ, the declared type being neither interface nor map; the key
    slot of two maps is not accepted; the key slot is accepted and the
    element slot is not. *)
Theorem argument_matcher_errors (conv : type -> type -> bool)
    (doArg callArg : type) (err : error) :
  validateArg conv doArg callArg = Return (Some err) ->
  (Kind_of callArg = Interface /\ conv doArg callArg = false /\
   err = errNotConvertible callArg doArg)
  \/
  (Kind_of callArg <> Interface /\ Kind_of callArg <> Kind_of doArg /\
   err = errKind (Kind_of callArg) (Kind_of doArg))
  \/
  (strict callArg /\ Kind_of doArg = Kind_of callArg /\ doArg <> callArg /\
   err = errType callArg doArg)
  \/
  (Kind_of callArg = Map /\ Kind_of doArg = Map /\
   exists callKey doKey,
     Key callArg = Return callKey /\ Key doArg = Return doKey /\
     ~ slot_ok conv doKey callKey /\
     err = slot_error "map key" errMapKey doKey callKey)
  \/
  (Kind_of callArg = Map /\ Kind_of doArg = Map /\
   exists callKey doKey callElem doElem,
     Key callArg = Return callKey /\ Key doArg = Return doKey /\
     Elem callArg = Return callElem /\ Elem doArg = Return doElem /\
     slot_ok conv doKey callKey /\ ~ slot_ok conv doElem callElem /\
     err = slot_error "map element" errMapElement doElem callElem).
Proof.
  intro Hr.
  destruct (Kind_eqb (Kind_of callArg) Interface) eqn:Hi.
  { apply Kind_eqb_eq in Hi. left. rewrite validateArg_Interface in Hr by exact Hi.
    injection Hr as Hr. unfold validateInterfaceArg in Hr.
    destruct (conv doArg callArg); simpl in Hr; [discriminate Hr|].
    injection Hr as <-. auto. }
  assert (Hni : Kind_of callArg <> Interface).
  { intro H. rewrite H in Hi. discriminate Hi. }
  right.
  destruct (Kind_eqb (Kind_of callArg) (Kind_of doArg)) eqn:Hk.
  2:{ left. assert (Hne : Kind_of callArg <> Kind_of doArg).
      { intro H. apply Kind_eqb_eq in H. congruence. }
      rewrite validateArg_Kind in Hr by assumption. injection Hr as <-. auto. }
  apply Kind_eqb_eq in Hk. right.
  destruct (Kind_eqb (Kind_of callArg) Map) eqn:Hm.
  2:{ left. assert (Hnm : Kind_of callArg <> Map).
      { intro H. rewrite H in Hm. discriminate Hm. }
      rewrite validateArg_other in Hr by auto.
      destruct (type_eqb doArg callArg) eqn:E; simpl in Hr; [discriminate Hr|].
      injection Hr as <-. apply type_eqb_neq in E. repeat split; auto. }
  apply Kind_eqb_eq in Hm. right.
  assert (Hd : Kind_of doArg = Map) by congruence.
  rewrite validateArg_Map in Hr by assumption.
  destruct (Kind_Map_Key _ Hm) as [ck Hck], (Kind_Map_Key _ Hd) as [dk Hdk].
  destruct (Kind_Map_Elem _ Hm) as [ce Hce], (Kind_Map_Elem _ Hd) as [de Hde].
  rewrite (validateMapArg_eq conv _ _ _ _ _ _ Hck Hdk Hce Hde) in Hr.
  destruct (slot_ok_dec conv dk ck) as [Hkey|Hkey].
  - right. destruct (slot_ok_dec conv de ce) as [Helem|Helem]; [discriminate Hr|].
    injection Hr as <-. repeat split; try assumption.
    exists ck, dk, ce, de. repeat split; assumption.
  - left. injection Hr as <-. repeat split; try assumption.
    exists ck, dk. repeat split; assumption.
Qed.

(** The test "is a map": [map[int]string] where [map[interface{}]int] is
    declared fails on the element. *)
Lemma argument_matcher_errors_witness :
  let doArg := MapOf int string_ in
  let callArg := MapOf emptyInterface int in
  let err := errMapElement int string_ in
  (Kind_of callArg = Interface /\ convertible_core doArg callArg = false /\
   err = errNotConvertible callArg doArg)
  \/
  (Kind_of callArg <> Interface /\ Kind_of callArg <> Kind_of doArg /\
   err = errKind (Kind_of callArg) (Kind_of doArg))
  \/
  (strict callArg /\ Kind_of doArg = Kind_of callArg /\ doArg <> callArg /\
   err = errType callArg doArg)
  \/
  (Kind_of callArg = Map /\ Kind_of doArg = Map /\
   exists callKey doKey,
     Key callArg = Return callKey /\ Key doArg = Return doKey /\
     ~ slot_ok convertible_core doKey callKey /\
     err = slot_error "map key" errMapKey doKey callKey)
  \/
  (Kind_of callArg = Map /\ Kind_of doArg = Map /\
   exists callKey doKey callElem doElem,
     Key callArg = Return callKey /\ Key doArg = Return doKey /\
     Elem callArg = Return callElem /\ Elem doArg = Return doElem /\
     slot_ok convertible_core doKey callKey /\
     ~ slot_ok convertible_core doElem callElem /\
     err = slot_error "map element" errMapElement doElem callElem).
Proof.
  exact (argument_matcher_errors convertible_core
           (MapOf int string_) (MapOf emptyInterface int)
           (errMapElement int string_) eq_refl).
Defined.

(** * The test reporter of call_test.go *)

Lemma int_wrap_small (z : Z) : - 2 ^ 63 <= z < 2 ^ 63 -> int_wrap z = z.
Proof. intro H. unfold int_wrap. rewrite Z.mod_small; lia. Qed.

Lemma int_wrap_succ (z k : Z) : int_wrap (int_wrap (z + k) + 1) = int_wrap (z + (k + 1)).
Proof.
  unfold int_wrap.
  replace ((z + k + 2 ^ 63) mod 2 ^ 64 - 2 ^ 63 + 1 + 2 ^ 63)
    with ((z + k + 2 ^ 63) mod 2 ^ 64 + 1) by lia.
  rewrite Zplus_mod_idemp_l. f_equal. f_equal. lia.
Qed.

Section ReporterFacts.

Variable any : Type.

Lemma reports_counts (cs : list (reporterCall any)) (o : mockTestReporter)
    (e f : Z) :
  errorCalls (reports any {| errorCalls := int_wrap (errorCalls o + e);
                             fatalCalls := int_wrap (fatalCalls o + f) |} cs)
  = int_wrap (errorCalls o + (e + countErrorf any cs)) /\
  fatalCalls (reports any {| errorCalls := int_wrap (errorCalls o + e);
                             fatalCalls := int_wrap (fatalCalls o + f) |} cs)
  = int_wrap (fatalCalls o + (f + countFatalf any cs)).
Proof.
  revert e f. unfold reports, countErrorf, countFatalf.
  induction cs as [|c cs IH]; intros e f; simpl.
  - now rewrite !Z.add_0_r.
  - destruct c as [format args|format args|]; simpl.
    + unfold Errorf. cbn [errorCalls fatalCalls]. rewrite int_wrap_succ.
      destruct (IH (e + 1) f) as [-> ->]. split; f_equal; lia.
    + unfold Fatalf. cbn [errorCalls fatalCalls]. rewrite int_wrap_succ.
      destruct (IH e (f + 1)) as [-> ->]. split; f_equal; lia.
    + unfold Helper. apply IH.
Qed.

End ReporterFacts.

(** X11.  A substitute accepted for a variadic declared function takes a
    slice as its last parameter: either the very slice type of the
    variadic parameter, or a slice whose element type converts to the
    declared element type, an interface. *)
Theorem accepted_variadic_takes_slice (conv : type -> type -> bool)
    (doFunc callFunc : type) (dins douts cinit couts : list type) (dv : bool)
    (declaredElem : type) :
  signature doFunc = Some (dins, douts, dv) ->
  signature callFunc = Some ((cinit ++ [SliceOf declaredElem])%list, couts, true) ->
  ValidateInputAndOutputSig conv doFunc callFunc = Return None ->
  exists dinit dlast subElem,
    dins = (dinit ++ [dlast])%list /\
    Kind_of dlast = Slice /\ Elem dlast = Return subElem /\
    (dlast = SliceOf declaredElem \/
     (Kind_of declaredElem = Interface /\ conv subElem declaredElem = true)).
Proof.
  intros Hd Hc Hr.
  apply (ValidateInputAndOutputSig_accepts conv _ _ _ _ _ _ _ _ Hd Hc) in Hr
    as [Hins _]; [|intros _; now exists cinit, declaredElem].
  destruct Hins as (dinit & dlast & cinit' & e & -> & Hc' & Hva & _).
  apply app_inj_tail in Hc' as [_ He]. injection He as <-.
  destruct Hva as [->|(Hs & Hi & subElem & He & Hcv)].
  - exists dinit, (SliceOf declaredElem), declaredElem. repeat split. now left.
  - exists dinit, dlast, subElem. repeat split; try assumption. right. now split.
Qed.

Lemma accepted_variadic_takes_slice_witness :
  exists dinit dlast subElem,
    [string_; SliceOf int] = (dinit ++ [dlast])%list /\
    Kind_of dlast = Slice /\ Elem dlast = Return subElem /\
    (dlast = SliceOf emptyInterface \/
     (Kind_of emptyInterface = Interface /\
      convertible_core subElem emptyInterface = true)).
Proof.
  exact (accepted_variadic_takes_slice convertible_core
           (FuncOf [string_; SliceOf int] [bool_] false)
           (FuncOf [string_; SliceOf emptyInterface] [bool_] true)
           [string_; SliceOf int] [bool_] [string_] [bool_] false emptyInterface
           eq_refl eq_refl eq_refl).
Defined.

(** X12.  After any run of calls on a [mockTestReporter], [errorCalls]
    has grown by the number of [Errorf] calls and [fatalCalls] by the
    number of [Fatalf] calls, as Go [int]s; neither call touches the other
    counter and [Helper] touches none.  Short of 2^63 calls the counts
    are exact. *)
Theorem reporter_counts (any : Type) (o : mockTestReporter)
    (cs : list (reporterCall any)) :
  - 2 ^ 63 <= errorCalls o < 2 ^ 63 ->
  - 2 ^ 63 <= fatalCalls o < 2 ^ 63 ->
  errorCalls (reports any o cs) = int_wrap (errorCalls o + countErrorf any cs) /\
  fatalCalls (reports any o cs) = int_wrap (fatalCalls o + countFatalf any cs) /\
  (errorCalls o + countErrorf any cs < 2 ^ 63 ->
   errorCalls (reports any o cs) = errorCalls o + countErrorf any cs) /\
  (fatalCalls o + countFatalf any cs < 2 ^ 63 ->
   fatalCalls (reports any o cs) = fatalCalls o + countFatalf any cs).
Proof.
  intros He Hf. destruct o as [x y]. simpl in He, Hf.
  pose proof (reports_counts any cs {| errorCalls := x; fatalCalls := y |} 0 0)
    as [H1 H2].
  simpl in H1, H2. rewrite !Z.add_0_r in H1, H2.
  rewrite (int_wrap_small x), (int_wrap_small y) in H1, H2 by lia.
  simpl. rewrite H1, H2.
  assert (0 <= countErrorf any cs) by (unfold countErrorf; lia).
  assert (0 <= countFatalf any cs) by (unfold countFatalf; lia).
  repeat split; intros; apply int_wrap_small; lia.
Qed.

(** A fresh reporter after two [Errorf], one [Fatalf] and one [Helper]. *)
Lemma reporter_counts_witness :
  let cs := [CallErrorf string "a" []; CallFatalf string "b" ["c"];
             CallHelper string; CallErrorf string "d" []] in
  let o := reports string {| errorCalls := 0; fatalCalls := 0 |} cs in
  errorCalls o = 2 /\ fatalCalls o = 1.
Proof.
  destruct (reporter_counts string {| errorCalls := 0; fatalCalls := 0 |}
              [CallErrorf string "a" []; CallFatalf string "b" ["c"];
               CallHelper string; CallErrorf string "d" []])
    as (_ & _ & He & Hf); simpl; try lia.
  split; [apply He | apply Hf]; vm_compute; reflexivity.
Defined.
